(** * Async-Port-Scanner: the scan engine of [scanner.py]

    A shallow embedding of [scan_port], [fetch_service_banner] and
    [scan_ports].  Coroutines become computations in a small trace monad:
    a computation yields the list of events it performs together with its
    outcome (a value, an exception, or no outcome at all when an [await]
    never resumes).  What the network does is an input, the [world].
    The event loop is a step relation that interleaves the events of the
    probes under the semaphore. *)

From Stdlib Require Import QArith Qround Lqa.
From Stdlib Require Import Strings.Byte Strings.Ascii Strings.String.
From stdpp Require Import gmap strings list fin_maps pretty.

Local Open Scope Z_scope.

(** ** Python values *)

(** [bytes] objects. *)
Abbreviation bytes := (list byte).

(** [str] objects: sequences of Unicode code points. *)
Abbreviation pystr := (list N).

Definition pystr_of_string (s : string) : pystr :=
  map Ascii.N_of_ascii (String.list_ascii_of_string s).

Definition bytes_of_string (s : string) : bytes :=
  String.list_byte_of_string s.

(** The exception classes the scanner distinguishes.  [CancelledError]
    derives from [BaseException] (Python 3.8 and later); every other class
    derives from [Exception].  The message texts of library exceptions are
    abridged. *)
Inductive exn : Type :=
  | TimeoutError
  | ConnectionRefusedError
  | CancelledError
  | UnicodeDecodeError (pos : nat)
  | OtherError (detail : string).

Definition is_Exception (e : exn) : bool :=
  match e with
  | CancelledError => false
  | _ => true
  end.

(** [str(e)], as interpolated by the f-string of the last handler. *)
Definition str_exn (e : exn) : string :=
  match e with
  | TimeoutError => ""
  | ConnectionRefusedError => "Connection refused"
  | CancelledError => ""
  | UnicodeDecodeError pos =>
      "'utf-8' codec can't decode byte in position " +:+ pretty pos
  | OtherError detail => detail
  end.

(** ** [bytes.decode()]: strict UTF-8 *)

Definition is_cont (b : N) : bool := ((0x80 <=? b) && (b <=? 0xBF))%N.

Definition cont_bits (b : N) : N := N.land b 0x3F.

(** Decodes from position [pos]; the well-formed byte sequences are those
    of the Unicode standard (no overlong forms, no surrogates, nothing
    above U+10FFFF). *)
Fixpoint utf8_decode (pos : nat) (bs : list N) : exn + pystr :=
  match bs with
  | [] => inr []
  | b0 :: r0 =>
    if (b0 <? 0x80)%N then
      match utf8_decode (S pos) r0 with
      | inr s => inr (b0 :: s)
      | inl e => inl e
      end
    else if ((0xC2 <=? b0) && (b0 <=? 0xDF))%N then
      match r0 with
      | b1 :: r1 =>
        if is_cont b1 then
          match utf8_decode (S (S pos)) r1 with
          | inr s => inr ((N.land b0 0x1F * 64 + cont_bits b1)%N :: s)
          | inl e => inl e
          end
        else inl (UnicodeDecodeError pos)
      | [] => inl (UnicodeDecodeError pos)
      end
    else if ((0xE0 <=? b0) && (b0 <=? 0xEF))%N then
      match r0 with
      | b1 :: b2 :: r2 =>
        if is_cont b1 && is_cont b2
           && negb ((b0 =? 0xE0)%N && (b1 <? 0xA0)%N)
           && negb ((b0 =? 0xED)%N && (0x9F <? b1)%N)
        then
          match utf8_decode (S (S (S pos))) r2 with
          | inr s =>
              inr (((N.land b0 0x0F * 64 + cont_bits b1) * 64
                    + cont_bits b2)%N :: s)
          | inl e => inl e
          end
        else inl (UnicodeDecodeError pos)
      | _ => inl (UnicodeDecodeError pos)
      end
    else if ((0xF0 <=? b0) && (b0 <=? 0xF4))%N then
      match r0 with
      | b1 :: b2 :: b3 :: r3 =>
        if is_cont b1 && is_cont b2 && is_cont b3
           && negb ((b0 =? 0xF0)%N && (b1 <? 0x90)%N)
           && negb ((b0 =? 0xF4)%N && (0x8F <? b1)%N)
        then
          match utf8_decode (S (S (S (S pos)))) r3 with
          | inr s =>
              inr ((((N.land b0 0x07 * 64 + cont_bits b1) * 64
                     + cont_bits b2) * 64 + cont_bits b3)%N :: s)
          | inl e => inl e
          end
        else inl (UnicodeDecodeError pos)
      | _ => inl (UnicodeDecodeError pos)
      end
    else inl (UnicodeDecodeError pos)
  end.

Definition decode (b : bytes) : exn + pystr :=
  utf8_decode 0 (map Byte.to_N b).

(** ** [str.strip()] *)

(** The code points for which [str.isspace] holds. *)
Definition py_isspace (c : N) : bool :=
  (((0x09 <=? c) && (c <=? 0x0D))
   || ((0x1C <=? c) && (c <=? 0x20))
   || (c =? 0x85) || (c =? 0xA0) || (c =? 0x1680)
   || ((0x2000 <=? c) && (c <=? 0x200A))
   || (c =? 0x2028) || (c =? 0x2029) || (c =? 0x202F)
   || (c =? 0x205F) || (c =? 0x3000))%N.

Fixpoint lstrip (s : pystr) : pystr :=
  match s with
  | c :: s' => if py_isspace c then lstrip s' else s
  | [] => []
  end.

Definition strip (s : pystr) : pystr :=
  rev (lstrip (rev (lstrip s))).

(** ** Events, outcomes and the coroutine monad *)

Inductive level : Type := INFO | WARNING | ERROR.

Inductive event : Type :=
  | EvAcquire                                 (* the semaphore gave a permit *)
  | EvRelease                                 (* the permit is given back *)
  | EvConnect (host : string) (port : Z)      (* open_connection starts *)
  | EvRead (n : nat)                          (* reader.read(n) starts *)
  | EvClose                                   (* writer.close() *)
  | EvWaitClosed                              (* writer.wait_closed() starts *)
  | EvSleep (d : Q)                           (* asyncio.sleep(d) starts *)
  | EvResume (t : Q)                          (* the pending await ends after t *)
  | EvLog (lvl : level) (msg : string).       (* a record for the log file *)

Inductive outcome (A : Type) : Type :=
  | Ret (a : A)
  | Exc (e : exn)
  | Hang.
Arguments Ret {A} a.
Arguments Exc {A} e.
Arguments Hang {A}.

Definition M (A : Type) : Type := (list event * outcome A)%type.

Definition trace {A} (m : M A) : list event := fst m.
Definition result {A} (m : M A) : outcome A := snd m.

#[export] Instance M_ret : MRet M := λ A a, ([], Ret a).

#[export] Instance M_bind : MBind M := λ A B f m,
  match m with
  | (tr, Ret a) => let '(tr', o) := f a in (tr ++ tr', o)
  | (tr, Exc e) => (tr, Exc e)
  | (tr, Hang) => (tr, Hang)
  end.

Definition emit (e : event) : M () := ([e], Ret ()).

Definition raise {A} (e : exn) : M A := ([], Exc e).

(** What awaiting an operation of the outside world gives: a value or an
    exception after some time, or nothing ever. *)
Inductive awaited (A : Type) : Type :=
  | Completes (t : Q) (a : A)
  | Raises (t : Q) (e : exn)
  | Never.
Arguments Completes {A} t a.
Arguments Raises {A} t e.
Arguments Never {A}.

Definition awaited_map {A B} (f : A → B) (b : awaited A) : awaited B :=
  match b with
  | Completes t a => Completes t (f a)
  | Raises t e => Raises t e
  | Never => Never
  end.

(** A coroutine object that has not started: the event that starts it and
    what awaiting it gives. *)
Definition awaitable (A : Type) : Type := (event * awaited A)%type.

Definition resume {A} (b : awaited A) : M A :=
  match b with
  | Completes t a => ([EvResume t], Ret a)
  | Raises t e => ([EvResume t], Exc e)
  | Never => ([], Hang)
  end.

(** [await c], with no limit on the wait. *)
Definition await {A} (c : awaitable A) : M A :=
  emit (fst c);; resume (snd c).

Definition Qltb (x y : Q) : bool := negb (Qle_bool y x).

(** [await asyncio.wait_for(c, timeout)]: the awaitable is given up once
    [timeout] has passed, and [TimeoutError] is raised. *)
Definition wait_for {A} (c : awaitable A) (timeout : Q) : M A :=
  emit (fst c);;
  match snd c with
  | Completes t a =>
      if Qltb t timeout then resume (Completes t a)
      else resume (Raises timeout TimeoutError)
  | Raises t e =>
      if Qltb t timeout then resume (Raises t e)
      else resume (Raises timeout TimeoutError)
  | Never => resume (Raises timeout TimeoutError)
  end.

(** [try: m except ...: h]. *)
Definition try_except {A} (m : M A) (h : exn → M A) : M A :=
  match m with
  | (tr, Exc e) => let '(tr', o) := h e in (tr ++ tr', o)
  | _ => m
  end.

(** ** The network *)

Record StreamReader : Type := { read_behaviour : awaited bytes }.
Record StreamWriter : Type := { wait_closed_behaviour : awaited () }.

(** What a connection attempt to a host and port gives. *)
Definition world : Type := string → Z → awaited (StreamReader * StreamWriter).

Definition open_connection (w : world) (host : string) (port : Z)
  : awaitable (StreamReader * StreamWriter) :=
  (EvConnect host port, w host port).

(** [reader.read(n)]: at most [n] of the bytes that have arrived; no bytes
    at all is the end of the stream. *)
Definition reader_read (reader : StreamReader) (n : nat) : awaitable bytes :=
  (EvRead n, awaited_map (take n) (read_behaviour reader)).

Definition writer_close (writer : StreamWriter) : M () := emit EvClose.

Definition writer_wait_closed (writer : StreamWriter) : awaitable () :=
  (EvWaitClosed, wait_closed_behaviour writer).

Definition asyncio_sleep (d : Q) : awaitable () :=
  (EvSleep d, Completes d ()).

Definition logging_warning (msg : string) : M () := emit (EvLog WARNING msg).
Definition logging_error (msg : string) : M () := emit (EvLog ERROR msg).

(** ** The scanner *)

Definition MAX_CONCURRENT_SCANS : nat := 100.

(** [semaphore = asyncio.Semaphore(MAX_CONCURRENT_SCANS)], as its initial
    number of permits; the event loop below keeps its counter. *)
Definition semaphore : nat := MAX_CONCURRENT_SCANS.

(** [async with semaphore: body].  The permit is given back when the body
    is left, by a return or by an exception. *)
Definition async_with_semaphore {A} (body : M A) : M A :=
  match body with
  | (tr, Hang) => (EvAcquire :: tr, Hang)
  | (tr, o) => (EvAcquire :: tr ++ [EvRelease], o)
  end.

Definition fetch_service_banner (reader : StreamReader) : M (option pystr) :=
  try_except
    (banner ← await (reader_read reader 1024);
     match decode banner with
     | inr s => mret (Some (strip s))
     | inl e => raise e
     end)
    (λ e, match e with
          | CancelledError => mret None
          | _ => raise e
          end).

(** The [try] block of [scan_port]. *)
Definition scan_port_try (w : world) (target_host : string) (target_port : Z)
  : M (Z * option pystr) :=
  let connection := open_connection w target_host target_port in
  '(reader, writer) ← wait_for connection 1;
  service_info ← fetch_service_banner reader;
  writer_close writer;;
  await (writer_wait_closed writer);;
  await (asyncio_sleep (1 # 10));;
  mret (target_port, service_info).

(** The [except] clauses of [scan_port], tried in the order of the
    source; an exception that is not an [Exception] is not caught. *)
Definition scan_port_except (target_host : string) (target_port : Z) (e : exn)
  : M (Z * option pystr) :=
  match e with
  | TimeoutError =>
      logging_warning ("Timeout occurred for port "
        +:+ pretty target_port +:+ " on " +:+ target_host);;
      mret (target_port, None)
  | ConnectionRefusedError =>
      logging_warning ("Connection refused for port "
        +:+ pretty target_port +:+ " on " +:+ target_host);;
      mret (target_port, None)
  | _ =>
      if is_Exception e then
        logging_error ("Unexpected error for port "
          +:+ pretty target_port +:+ " on " +:+ target_host
          +:+ ": " +:+ str_exn e);;
        mret (target_port, None)
      else raise e
  end.

Definition scan_port (w : world) (target_host : string) (target_port : Z)
  : M (Z * option pystr) :=
  async_with_semaphore
    (try_except (scan_port_try w target_host target_port)
                (scan_port_except target_host target_port)).

(** [asyncio.gather]: an exception of a child is raised at once; otherwise
    the results come in the order of the arguments once every child is
    done.  Of several exceptions the model takes the first of the list. *)
Fixpoint gather_outcomes {A} (os : list (outcome A)) : outcome (list A) :=
  match os with
  | [] => Ret []
  | o :: os' =>
    match o, gather_outcomes os' with
    | Exc e, _ => Exc e
    | _, Exc e => Exc e
    | Hang, _ => Hang
    | _, Hang => Hang
    | Ret a, Ret l => Ret (a :: l)
    end
  end.

(** The events of all children, here in the order of the arguments; the
    event loop below covers every other order. *)
Definition gather {A} (ms : list (M A)) : M (list A) :=
  (concat (map trace ms), gather_outcomes (map result ms)).

(** [{port: info for port, info in results if info is not None}]. *)
Definition open_ports_of (results : list (Z * option pystr)) : gmap Z pystr :=
  foldl (λ d r, match r.2 with
                | Some info => <[r.1 := info]> d
                | None => d
                end) ∅ results.

Definition scan_ports (w : world) (target_host : string)
    (ports_to_scan : list Z) : M (gmap Z pystr) :=
  let scan_tasks := map (λ port, scan_port w target_host port) ports_to_scan in
  results ← gather scan_tasks;
  let open_ports := open_ports_of results in
  mret open_ports.

(** ** The event loop *)

(** A running probe: the events it has performed, the events still to
    come, and what it yields to [gather] once it is done. *)
Record task : Type := {
  t_done : list event;
  t_todo : list event;
  t_result : outcome (Z * option pystr)
}.

(** The semaphore's counter, the tasks of [gather], the log file. *)
Record loop_state : Type := {
  sem_value : nat;
  tasks : list task;
  log : list (level * string)
}.

Definition spawn (m : M (Z * option pystr)) : task :=
  {| t_done := []; t_todo := trace m; t_result := result m |}.

(** The start of [scan_ports]: one task per port, none of them started,
    all permits available.  The scanner runs with [capacity = semaphore]. *)
Definition init (capacity : nat) (w : world) (target_host : string)
    (ports_to_scan : list Z) : loop_state :=
  {| sem_value := capacity;
     tasks := map (λ port, spawn (scan_port w target_host port)) ports_to_scan;
     log := [] |}.

(** The effect of an event on the shared state.  [Semaphore.acquire]
    takes a permit only while the counter is positive, and the task stays
    suspended otherwise; [release] adds one. *)
Definition fire (e : event) (v : nat) (lg : list (level * string))
  : option (nat * list (level * string)) :=
  match e with
  | EvAcquire => if decide (0 < v)%nat then Some ((v - 1)%nat, lg) else None
  | EvRelease => Some ((v + 1)%nat, lg)
  | EvLog lvl msg => Some (v, lg ++ [(lvl, msg)])
  | _ => Some (v, lg)
  end.

Definition perform (e : event) (rest : list event) (tk : task) : task :=
  {| t_done := t_done tk ++ [e]; t_todo := rest; t_result := t_result tk |}.

(** The loop resumes any task whose next event can fire. *)
Inductive step : loop_state → loop_state → Prop :=
  | step_task v lg l1 tk l2 e rest v' lg' :
      t_todo tk = e :: rest →
      fire e v lg = Some (v', lg') →
      step {| sem_value := v; tasks := l1 ++ tk :: l2; log := lg |}
           {| sem_value := v'; tasks := l1 ++ perform e rest tk :: l2;
              log := lg' |}.

Definition is_acquire (e : event) : bool :=
  match e with EvAcquire => true | _ => false end.
Definition is_release (e : event) : bool :=
  match e with EvRelease => true | _ => false end.
Definition is_connect (e : event) : bool :=
  match e with EvConnect _ _ => true | _ => false end.
Definition is_read (e : event) : bool :=
  match e with EvRead _ => true | _ => false end.
Definition is_close (e : event) : bool :=
  match e with EvClose | EvWaitClosed => true | _ => false end.
Definition is_sleep (e : event) : bool :=
  match e with EvSleep _ => true | _ => false end.
Definition is_log (e : event) : bool :=
  match e with EvLog _ _ => true | _ => false end.

(** The task is inside [async with semaphore]. *)
Definition holds_permit (tk : task) : bool :=
  existsb is_acquire (t_done tk) && negb (existsb is_release (t_done tk)).

(** The task has started its connection attempt and has not yet left
    [async with semaphore]: the attempt is pending or the connection is
    in use. *)
Definition active (tk : task) : bool :=
  existsb is_connect (t_done tk) && negb (existsb is_release (t_done tk)).

(** No task has an event left. *)
Definition quiescent (s : loop_state) : Prop :=
  Forall (λ tk, t_todo tk = []) (tasks s).

(** What [scan_ports] makes of the tasks when [gather] resumes it. *)
Definition scan_result (s : loop_state) : outcome (gmap Z pystr) :=
  match gather_outcomes (map t_result (tasks s)) with
  | Ret results => Ret (open_ports_of results)
  | Exc e => Exc e
  | Hang => Hang
  end.

(** ** Targets *)

Definition untimed {A} (b : awaited A) : awaited A :=
  match b with
  | Completes _ a => Completes 0 a
  | Raises _ e => Raises 0 e
  | Never => Never
  end.

(** What a connection attempt answers before [timeout], with all times
    forgotten. *)
Definition answer_within (timeout : Q)
    (b : awaited (StreamReader * StreamWriter))
  : awaited (awaited bytes * awaited ()) :=
  match b with
  | Completes t (r, wr) =>
      if Qltb t timeout
      then Completes 0 (untimed (read_behaviour r),
                        untimed (wait_closed_behaviour wr))
      else Never
  | Raises t e => if Qltb t timeout then Raises 0 e else Never
  | Never => Never
  end.

(** Two runs meet the same target: the same answers on every port, at
    times that may differ. *)
Definition same_target (w1 w2 : world) : Prop :=
  ∀ host port, answer_within 1 (w1 host port) = answer_within 1 (w2 host port).

(** No await of the probe is left pending for ever and nothing cancels
    the task. *)
Definition answers {A} (b : awaited A) : Prop :=
  match b with
  | Completes _ _ => True
  | Raises _ e => is_Exception e = true
  | Never => False
  end.

Definition cooperative (w : world) (host : string) (port : Z) : Prop :=
  match w host port with
  | Completes t (r, wr) =>
      Qltb t 1 = true →
      answers (read_behaviour r) ∧ answers (wait_closed_behaviour wr)
  | Raises t e => Qltb t 1 = true → is_Exception e = true
  | Never => True
  end.

(** A test target on 127.0.0.1: a listener on 9999 that greets with
    "ready", nothing on 22, 80 and 81, a filtered port 23, a listener on
    24 that sends a byte that is not UTF-8, a listener on 25 that greets
    after five time units, a silent listener on 26, a listener on 27 that
    closes without a word, and a listener on 28 whose probe is cancelled
    during the read. *)
Definition connection_of (r : awaited bytes) (c : awaited ())
  : StreamReader * StreamWriter :=
  ({| read_behaviour := r |}, {| wait_closed_behaviour := c |}).

Definition test_target : world := λ host port,
  if decide (port = 9999) then
    Completes (1 # 100)
      (connection_of (Completes (1 # 50) (bytes_of_string "ready
")) (Completes 0 ()))
  else if decide (port = 22 ∨ port = 80 ∨ port = 81) then
    Raises (1 # 1000) ConnectionRefusedError
  else if decide (port = 23) then Never
  else if decide (port = 24) then
    Completes (1 # 100) (connection_of (Completes (1 # 50) [Byte.xff])
                                       (Completes 0 ()))
  else if decide (port = 25) then
    Completes (1 # 100)
      (connection_of (Completes 5 (bytes_of_string "hello")) (Completes 0 ()))
  else if decide (port = 26) then
    Completes (1 # 100) (connection_of Never (Completes 0 ()))
  else if decide (port = 27) then
    Completes (1 # 100) (connection_of (Completes (1 # 50) [])
                                       (Completes 0 ()))
  else if decide (port = 28) then
    Completes (1 # 100) (connection_of (Raises (1 # 2) CancelledError)
                                       (Completes 0 ()))
  else Raises (1 # 1000) (OtherError "Name or service not known").

(** The same target behind a slower network: every answer to a
    connection attempt comes [d] later. *)
Definition delayed (d : Q) (w : world) : world := λ host port,
  match w host port with
  | Completes t c => Completes (t + d) c
  | Raises t e => Raises (t + d) e
  | Never => Never
  end.

(** ** Vocabulary for the statements *)

(** The resume event of an await, if it ever resumes. *)
Definition resumed {A} (b : awaited A) : list event :=
  match b with
  | Completes t _ | Raises t _ => [EvResume t]
  | Never => []
  end.

(** The try block when the connection attempt runs into the timeout. *)
Definition timed_out (host : string) (port : Z) : M (Z * option pystr) :=
  ([EvConnect host port; EvResume 1], Exc TimeoutError).

(** The level at which the except clauses log an exception. *)
Definition log_level_of (e : exn) : level :=
  match e with
  | TimeoutError | ConnectionRefusedError => WARNING
  | _ => ERROR
  end.

(** How long the probe stayed suspended in [reader.read]: the time of the
    resume event that follows the read event, if the read ever resumed. *)
Fixpoint read_wait (tr : list event) : option Q :=
  match tr with
  | EvRead _ :: EvResume t :: _ => Some t
  | EvRead _ :: _ => None
  | _ :: tr' => read_wait tr'
  | [] => None
  end.

(** The task after its next [n] events. *)
Definition after (n : nat) (tk : task) : task :=
  {| t_done := t_done tk ++ take n (t_todo tk);
     t_todo := drop n (t_todo tk);
     t_result := t_result tk |}.

(** How many tasks satisfy a test. *)
Definition number_of (f : task → bool) (ts : list task) : nat :=
  length (List.filter f ts).

(** No event of the trace touches the semaphore. *)
Definition sem_free (tr : list event) : bool :=
  forallb (λ e, negb (is_acquire e || is_release e)) tr.

(** The events of a probe, performed or still to come, are bracketed by
    the semaphore: the permit first, the connection attempt next, and the
    permit given back last, if at all. *)
Definition bracketed (tk : task) : Prop :=
  ∃ host port body tail,
    t_done tk ++ t_todo tk = EvAcquire :: EvConnect host port :: body ++ tail ∧
    sem_free body = true ∧
    (tail = [] ∨ tail = [EvRelease]).

(** The invariant of the event loop under a semaphore of a given
    capacity. *)
Definition loop_invariant (capacity : nat) (s : loop_state) : Prop :=
  (sem_value s + number_of holds_permit (tasks s) = capacity)%nat ∧
  Forall bracketed (tasks s).

(** ** The rest of the vocabulary *)

(** The log records of a trace, in order. *)
Definition logs_of (tr : list event) : list (level * string) :=
  omap (λ e, match e with EvLog lvl msg => Some (lvl, msg) | _ => None end) tr.

(** The time a coroutine spent suspended: the sum of its resume events. *)
Definition elapsed (tr : list event) : Q :=
  foldr (λ e acc, match e with EvResume t => t + acc | _ => acc end)%Q 0%Q tr.

Definition is_hang {A} (o : outcome A) : bool :=
  match o with Hang => true | _ => false end.

(** The events that the tasks of a state have still to perform. *)
Definition remaining (s : loop_state) : nat :=
  sum_list (map (λ tk, length (t_todo tk)) (tasks s)).

(** The task runs the probe of that port. *)
Definition task_of (w : world) (host : string) (port : Z) (tk : task) : Prop :=
  t_done tk ++ t_todo tk = trace (scan_port w host port) ∧
  t_result tk = result (scan_port w host port).

(** The probes of a list of ports that never return. *)
Definition hanging (w : world) (host : string) (ports : list Z) : nat :=
  length (List.filter (λ p, is_hang (result (scan_port w host p))) ports).

(** ** The result sink and the entry point *)

(** A dict with int keys, as Python keeps it: in the order of insertion,
    an assignment to a key that is present replacing the value in
    place. *)
Fixpoint dict_set (d : list (Z * pystr)) (k : Z) (v : pystr)
  : list (Z * pystr) :=
  match d with
  | [] => [(k, v)]
  | kv :: d' =>
      if decide (kv.1 = k) then (k, v) :: d' else kv :: dict_set d' k v
  end.

(** [{port: info for port, info in results if info is not None}], with
    the order of its entries. *)
Definition open_ports_dict (results : list (Z * option pystr))
  : list (Z * pystr) :=
  foldl (λ d r, match r.2 with
                | Some info => dict_set d r.1 info
                | None => d
                end) [] results.

(** [scan_ports], returning the dict with the order of its entries. *)
Definition scan_ports_dict (w : world) (target_host : string)
    (ports_to_scan : list Z) : M (list (Z * pystr)) :=
  let scan_tasks := map (λ port, scan_port w target_host port) ports_to_scan in
  results ← gather scan_tasks;
  let open_ports := open_ports_dict results in
  mret open_ports.

(** What [json.dump] is given, what [csv.writer] is given row by row,
    and what a file holds once it is closed. *)
Inductive json : Type :=
  | JString (s : pystr)
  | JObject (members : list (pystr * json)).

Inductive cell : Type :=
  | CInt (n : Z)
  | CStr (s : pystr).

Inductive document : Type :=
  | JsonDocument (j : json)
  | CsvDocument (rows : list (list cell)).

(** A log record is a text or, for the record of [save_scan_results],
    the host and the dict that its f-string renders. *)
Inductive log_message : Type :=
  | Text (msg : string)
  | Results (host : string) (open_ports : list (Z * pystr)).

(** The files, the log file and the standard output. *)
Record os_state : Type := {
  files : gmap string document;
  log_file : list (level * log_message);
  stdout : list pystr
}.

Definition print (line : pystr) (st : os_state) : os_state :=
  {| files := files st; log_file := log_file st;
     stdout := stdout st ++ [line] |}.

Definition logging_record (lvl : level) (msg : log_message) (st : os_state)
  : os_state :=
  {| files := files st; log_file := log_file st ++ [(lvl, msg)];
     stdout := stdout st |}.

(** [with open(name, 'w') as f: ...]: the file holds what was written,
    whatever it held before. *)
Definition write_file (name : string) (doc : document) (st : os_state)
  : os_state :=
  {| files := <[name := doc]> (files st); log_file := log_file st;
     stdout := stdout st |}.

Definition csv_rows (open_ports : list (Z * pystr)) : list (list cell) :=
  [CStr (pystr_of_string "Port"); CStr (pystr_of_string "Service Banner")]
    :: map (λ kv, [CInt kv.1; CStr kv.2]) open_ports.

Definition json_object (target_host : string) (open_ports : list (Z * pystr))
  : json :=
  JObject
    [(pystr_of_string "host", JString (pystr_of_string target_host));
     (pystr_of_string "open_ports",
      JObject (map (λ kv, (pystr_of_string (pretty kv.1), JString kv.2))
                   open_ports))].

Definition save_scan_results (target_host : string)
    (open_ports : list (Z * pystr)) (output_format : string) (st : os_state)
  : os_state :=
  let st := logging_record INFO (Results target_host open_ports) st in
  if decide (output_format = "json") then
    write_file "scan_results.json"
      (JsonDocument (json_object target_host open_ports)) st
  else if decide (output_format = "csv") then
    write_file "scan_results.csv" (CsvDocument (csv_rows open_ports)) st
  else st.

(** What [parse_arguments] returns. *)
Record Namespace : Type := {
  args_host : string;
  args_ports : list Z;
  args_output : string
}.

Definition port_line (kv : Z * pystr) : pystr :=
  pystr_of_string ("Port " +:+ pretty kv.1 +:+ ": ") ++ kv.2.

(** [main], from the parsed arguments on.  The records that the probes
    log come in the order of [gather]'s arguments. *)
Definition main (w : world) (args : Namespace) (st : os_state)
  : os_state * outcome () :=
  let target_host := args_host args in
  let ports_to_scan := args_ports args in
  let output_format := args_output args in
  let st := print (pystr_of_string
                     ("Starting scan on " +:+ target_host +:+ "...")) st in
  let scan := scan_ports_dict w target_host ports_to_scan in
  let st := foldl (λ st r, logging_record r.1 (Text r.2) st) st
                  (logs_of (trace scan)) in
  match result scan with
  | Ret open_ports =>
      let st :=
        match open_ports with
        | _ :: _ =>
            foldl (λ st kv, print (port_line kv) st)
                  (print (pystr_of_string
                            ("Discovered open ports on " +:+ target_host
                               +:+ ":")) st)
                  open_ports
        | [] =>
            print (pystr_of_string
                     ("No open ports were found on " +:+ target_host
                        +:+ ".")) st
        end in
      (save_scan_results target_host open_ports output_format st, Ret ())
  | Exc e => (st, Exc e)
  | Hang => (st, Hang)
  end.

(** * Properties *)

(** ** Lists of events *)

Lemma existsb_snoc {A} (f : A → bool) l x :
  existsb f (l ++ [x]) = existsb f l || f x.
Proof. rewrite existsb_app. cbn. by rewrite orb_false_r. Qed.

(** An element that the test singles out sits at one place only. *)
Lemma split_at_last {A} (f : A → bool) (l1 l2 m : list A) x :
  f x = true → existsb f m = false →
  l1 ++ x :: l2 = m ++ [x] → l1 = m ∧ l2 = [].
Proof.
  intros Hx. revert m. induction l1 as [|a l1 IH]; intros [|b m] Hm Heq;
    cbn in *; simplify_eq.
  - done.
  - rewrite Hx in Hm. done.
  - by destruct l1.
  - apply orb_false_elim in Hm as [_ Hm].
    destruct (IH m Hm) as [-> ->]; done.
Qed.

Lemma existsb_of_split {A} (f : A → bool) (l1 l2 : list A) x :
  f x = true → existsb f (l1 ++ x :: l2) = true.
Proof.
  intros Hx. rewrite existsb_app. cbn. rewrite Hx.
  by rewrite orb_true_r.
Qed.

(** Nothing follows the event that gives the permit back. *)
Lemma nothing_after_release (tr body pre post : list event) :
  tr = body ++ [EvRelease] →
  existsb is_release body = false →
  tr = pre ++ EvRelease :: post →
  post = [].
Proof.
  intros -> Hbody Heq. symmetry in Heq.
  by destruct (split_at_last is_release pre post body EvRelease eq_refl
                 Hbody Heq).
Qed.

(** ** Decoding *)

Lemma utf8_decode_error bs :
  ∀ pos e, utf8_decode pos bs = inl e → ∃ q, e = UnicodeDecodeError q.
Proof.
  induction bs as [bs IH] using (induction_ltof1 _ (@length N)).
  unfold ltof in IH.
  intros pos e H. destruct bs as [|b0 r0]; [discriminate|].
  cbn [utf8_decode] in H.
  repeat case_match; simplify_eq; eauto;
    match goal with
    | Hd : utf8_decode _ ?l = inl _ |- _ =>
        eapply (IH l); [simpl; lia | exact Hd]
    end.
Qed.

Lemma decode_error b e : decode b = inl e → ∃ q, e = UnicodeDecodeError q.
Proof. apply utf8_decode_error. Qed.

(** ** The banner reader, path by path *)

Lemma fetch_service_banner_unfold (reader : StreamReader) :
  fetch_service_banner reader =
    (EvRead 1024 :: resumed (read_behaviour reader),
     match read_behaviour reader with
     | Completes _ data =>
         match decode (take 1024 data) with
         | inr s => Ret (Some (strip s))
         | inl e => Exc e
         end
     | Raises _ CancelledError => Ret None
     | Raises _ e => Exc e
     | Never => Hang
     end).
Proof.
  unfold fetch_service_banner, await, reader_read. cbn [fst snd].
  destruct (read_behaviour reader) as [t data|t e|]; cbn.
  - destruct (decode (take 1024 data)) as [e|s] eqn:Hd; cbn; [|done].
    apply decode_error in Hd as [q ->]. done.
  - destruct e; done.
  - done.
Qed.

(** ** The try block, path by path *)

Lemma scan_port_try_unfold w host port :
  scan_port_try w host port =
  match w host port with
  | Completes t (r, wr) =>
    if Qltb t 1 then
      let pre := [EvConnect host port; EvResume t]
                   ++ trace (fetch_service_banner r) in
      match result (fetch_service_banner r) with
      | Ret info =>
        match wait_closed_behaviour wr with
        | Completes tc _ =>
            (pre ++ [EvClose; EvWaitClosed; EvResume tc;
                     EvSleep (1 # 10); EvResume (1 # 10)],
             Ret (port, info))
        | Raises tc e => (pre ++ [EvClose; EvWaitClosed; EvResume tc], Exc e)
        | Never => (pre ++ [EvClose; EvWaitClosed], Hang)
        end
      | Exc e => (pre, Exc e)
      | Hang => (pre, Hang)
      end
    else timed_out host port
  | Raises t e =>
    if Qltb t 1 then ([EvConnect host port; EvResume t], Exc e)
    else timed_out host port
  | Never => timed_out host port
  end.
Proof.
  unfold scan_port_try, open_connection, wait_for, timed_out. cbn [fst snd].
  destruct (w host port) as [t [r wr]|t e|]; [| |done].
  - destruct (Qltb t 1); [|done]. cbn.
    destruct (fetch_service_banner r) as [tr [si| |]]; [|done..].
    cbn. destruct (wait_closed_behaviour wr); cbn;
      rewrite <- ?app_assoc; done.
  - destruct (Qltb t 1); done.
Qed.

(** ** The except clauses and the semaphore block *)

Lemma scan_port_except_caught host port e :
  is_Exception e = true →
  ∃ msg, scan_port_except host port e
         = ([EvLog (log_level_of e) msg], Ret (port, None)).
Proof. destruct e; intros ?; simplify_eq; eexists; reflexivity. Qed.

Lemma scan_port_except_uncaught host port e :
  is_Exception e = false → scan_port_except host port e = ([], Exc e).
Proof. destruct e; intros ?; simplify_eq. reflexivity. Qed.

Lemma scan_port_of_try_Ret w host port r :
  result (scan_port_try w host port) = Ret r →
  scan_port w host port
  = (EvAcquire :: trace (scan_port_try w host port) ++ [EvRelease], Ret r).
Proof.
  unfold scan_port. destruct (scan_port_try w host port) as [tr o].
  cbn. intros ->. done.
Qed.

Lemma scan_port_of_try_Hang w host port :
  result (scan_port_try w host port) = Hang →
  scan_port w host port
  = (EvAcquire :: trace (scan_port_try w host port), Hang).
Proof.
  unfold scan_port. destruct (scan_port_try w host port) as [tr o].
  cbn. intros ->. done.
Qed.

Lemma scan_port_of_try_Exc w host port e :
  result (scan_port_try w host port) = Exc e →
  scan_port w host port
  = (EvAcquire :: trace (scan_port_try w host port)
       ++ trace (scan_port_except host port e) ++ [EvRelease],
     result (scan_port_except host port e)).
Proof.
  unfold scan_port. destruct (scan_port_try w host port) as [tr o].
  cbn. intros ->. cbn.
  destruct (is_Exception e) eqn:He.
  - destruct (scan_port_except_caught host port e He) as [msg ->].
    cbn. rewrite <- app_assoc. done.
  - rewrite (scan_port_except_uncaught host port e He).
    cbn. rewrite <- app_assoc. done.
Qed.

Lemma sem_free_app tr1 tr2 :
  sem_free (tr1 ++ tr2) = sem_free tr1 && sem_free tr2.
Proof. apply forallb_app. Qed.

Lemma fetch_service_banner_trace (reader : StreamReader) :
  trace (fetch_service_banner reader)
  = EvRead 1024 :: resumed (read_behaviour reader).
Proof. rewrite fetch_service_banner_unfold. done. Qed.

Lemma resumed_sem_free {A} (b : awaited A) : sem_free (resumed b) = true.
Proof. destruct b; done. Qed.

(** The try block starts with the connection attempt and never touches
    the semaphore. *)
Lemma scan_port_try_trace w host port :
  ∃ tr, trace (scan_port_try w host port) = EvConnect host port :: tr
        ∧ sem_free tr = true.
Proof.
  rewrite scan_port_try_unfold.
  destruct (w host port) as [t [r wr]|t e|].
  - destruct (Qltb t 1); [|eexists; split; reflexivity].
    cbv zeta. rewrite fetch_service_banner_trace.
    destruct (result (fetch_service_banner r)) as [info|e|].
    + destruct (wait_closed_behaviour wr) as [tc []|tc e|];
        (eexists; split; [reflexivity|]);
        cbn; rewrite sem_free_app, resumed_sem_free; done.
    + eexists; split; [reflexivity|]. cbn. apply resumed_sem_free.
    + eexists; split; [reflexivity|]. cbn. apply resumed_sem_free.
  - destruct (Qltb t 1); eexists; split; reflexivity.
  - eexists; split; reflexivity.
Qed.

Lemma scan_port_try_fst w host port r :
  result (scan_port_try w host port) = Ret r → r.1 = port.
Proof.
  rewrite scan_port_try_unfold.
  destruct (w host port) as [t [rd wr]|t e|]; [| |done].
  - destruct (Qltb t 1); [|done]. cbv zeta.
    destruct (result (fetch_service_banner rd)); [|done..].
    destruct (wait_closed_behaviour wr); [|done..].
    cbn. by intros [= <-].
  - by destruct (Qltb t 1).
Qed.

(** ** The whole probe *)

(** A probe takes its permit first, starts the connection attempt next,
    and gives the permit back last, unless an await never resumes. *)
Lemma scan_port_trace w host port :
  ∃ body,
    sem_free body = true ∧
    trace (scan_port w host port)
    = EvAcquire :: EvConnect host port :: body ++
        match result (scan_port w host port) with
        | Hang => []
        | _ => [EvRelease]
        end.
Proof.
  destruct (scan_port_try_trace w host port) as (tr & Htr & Hfree).
  destruct (result (scan_port_try w host port)) as [r|e|] eqn:Hres.
  - rewrite (scan_port_of_try_Ret _ _ _ _ Hres), Htr.
    exists tr. done.
  - rewrite (scan_port_of_try_Exc _ _ _ _ Hres), Htr.
    destruct (is_Exception e) eqn:He.
    + destruct (scan_port_except_caught host port e He) as [msg ->].
      exists (tr ++ [EvLog (log_level_of e) msg]). split.
      * rewrite sem_free_app, Hfree. done.
      * cbn. by rewrite <- app_assoc.
    + rewrite (scan_port_except_uncaught host port e He).
      exists tr. done.
  - rewrite (scan_port_of_try_Hang _ _ _ Hres), Htr.
    exists tr. cbn. by rewrite app_nil_r.
Qed.

Lemma scan_port_fst w host port r :
  result (scan_port w host port) = Ret r → r.1 = port.
Proof.
  destruct (result (scan_port_try w host port)) as [r'|e|] eqn:Hres.
  - rewrite (scan_port_of_try_Ret _ _ _ _ Hres). cbn. intros [= <-].
    by eapply scan_port_try_fst.
  - rewrite (scan_port_of_try_Exc _ _ _ _ Hres).
    destruct (is_Exception e) eqn:He.
    + destruct (scan_port_except_caught host port e He) as [msg ->].
      cbn. by intros [= <-].
    + by rewrite (scan_port_except_uncaught host port e He).
  - by rewrite (scan_port_of_try_Hang _ _ _ Hres).
Qed.

Lemma scan_port_uncaught w host port e :
  result (scan_port w host port) = Exc e →
  is_Exception e = false ∧ result (scan_port_try w host port) = Exc e.
Proof.
  destruct (result (scan_port_try w host port)) as [r'|e'|] eqn:Hres.
  - by rewrite (scan_port_of_try_Ret _ _ _ _ Hres).
  - rewrite (scan_port_of_try_Exc _ _ _ _ Hres).
    destruct (is_Exception e') eqn:He.
    + by destruct (scan_port_except_caught host port e' He) as [msg ->].
    + rewrite (scan_port_except_uncaught host port e' He). cbn.
      by intros [= <-].
  - by rewrite (scan_port_of_try_Hang _ _ _ Hres).
Qed.

(** A caught exception is logged once and the probe returns its port
    with no service information. *)
Lemma scan_port_caught w host port e :
  result (scan_port_try w host port) = Exc e →
  is_Exception e = true →
  ∃ msg,
    scan_port_except host port e
      = ([EvLog (log_level_of e) msg], Ret (port, None)) ∧
    scan_port w host port
      = (EvAcquire :: trace (scan_port_try w host port)
           ++ [EvLog (log_level_of e) msg; EvRelease],
         Ret (port, None)).
Proof.
  intros Hres He.
  destruct (scan_port_except_caught host port e He) as [msg Hmsg].
  exists msg. split; [done|].
  by rewrite (scan_port_of_try_Exc _ _ _ _ Hres), Hmsg.
Qed.

(** ** The orchestrator *)

Lemma gather_outcomes_Ret {A} (os : list (outcome A)) (l : list A) :
  gather_outcomes os = Ret l ↔ os = map Ret l.
Proof.
  revert l. induction os as [|o os IH]; intros l; cbn.
  - split; [by intros [= <-]|]. by destruct l.
  - split.
    + destruct (gather_outcomes os) as [l'|e'|] eqn:Hg;
        destruct o as [a|e|]; intros H; simplify_eq.
      cbn. f_equal. by apply IH.
    + destruct l as [|a l]; [done|]. cbn. intros [= -> Hos].
      apply IH in Hos. by rewrite Hos.
Qed.

Lemma scan_ports_result w host ports :
  result (scan_ports w host ports)
  = match gather_outcomes (map (λ p, result (scan_port w host p)) ports) with
    | Ret results => Ret (open_ports_of results)
    | Exc e => Exc e
    | Hang => Hang
    end.
Proof.
  unfold scan_ports, gather. cbn. rewrite !map_map.
  by destruct (gather_outcomes _).
Qed.

Lemma scan_ports_trace w host ports :
  trace (scan_ports w host ports)
  = concat (map (λ p, trace (scan_port w host p)) ports).
Proof.
  unfold scan_ports, gather. cbn. rewrite !map_map.
  destruct (gather_outcomes _); cbn; by rewrite ?app_nil_r.
Qed.

Lemma open_ports_of_snoc rs r :
  open_ports_of (rs ++ [r])
  = match r.2 with
    | Some info => <[r.1 := info]> (open_ports_of rs)
    | None => open_ports_of rs
    end.
Proof. unfold open_ports_of. by rewrite foldl_app. Qed.

Lemma open_ports_of_lookup_Some rs k v :
  open_ports_of rs !! k = Some v → (k, Some v) ∈ rs.
Proof.
  induction rs as [|[k' o] rs IH] using rev_ind; [done|].
  rewrite open_ports_of_snoc. cbn. destruct o as [info|].
  - destruct (decide (k' = k)) as [->|Hne].
    + rewrite lookup_insert_eq. intros [= ->]. set_solver.
    + rewrite lookup_insert_ne by done. set_solver.
  - set_solver.
Qed.

Lemma open_ports_of_lookup_unique rs k v :
  (k, Some v) ∈ rs →
  (∀ v', (k, Some v') ∈ rs → v' = v) →
  open_ports_of rs !! k = Some v.
Proof.
  induction rs as [|[k' o] rs IH] using rev_ind; [set_solver|].
  intros Hin Huniq. rewrite open_ports_of_snoc. cbn.
  destruct o as [info|].
  - destruct (decide (k' = k)) as [->|Hne].
    + rewrite lookup_insert_eq. f_equal. apply Huniq. set_solver.
    + rewrite lookup_insert_ne by done. apply IH; set_solver.
  - apply IH; set_solver.
Qed.

Lemma gathered_results w host ports rs :
  map (λ p, result (scan_port w host p)) ports = map Ret rs →
  ∀ r, r ∈ rs ↔ ∃ p, p ∈ ports ∧ result (scan_port w host p) = Ret r.
Proof.
  intros Heq r. rewrite !list_elem_of_In. split.
  - intros Hr. apply (in_map Ret) in Hr. rewrite <- Heq in Hr.
    apply in_map_iff in Hr as (p & Hp & Hin). exists p.
    by rewrite list_elem_of_In.
  - intros (p & Hin & Hp). rewrite list_elem_of_In in Hin.
    apply (in_map (λ p, result (scan_port w host p))) in Hin.
    rewrite Heq, Hp in Hin. apply in_map_iff in Hin as (r' & [= ->] & Hin).
    done.
Qed.

(** The mapping that [scan_ports] returns, entry by entry. *)
Lemma scan_ports_lookup w host ports d k v :
  result (scan_ports w host ports) = Ret d →
  d !! k = Some v ↔
    k ∈ ports ∧ result (scan_port w host k) = Ret (k, Some v).
Proof.
  rewrite scan_ports_result.
  destruct (gather_outcomes _) as [rs|e|] eqn:Hg; [|done..].
  intros [= <-]. apply gather_outcomes_Ret in Hg.
  pose proof (gathered_results w host ports rs Hg) as Hrs. split.
  - intros Hk. apply open_ports_of_lookup_Some, Hrs in Hk as (p & Hin & Hp).
    pose proof (scan_port_fst _ _ _ _ Hp) as Hfst. cbn in Hfst. by subst.
  - intros [Hin Hp]. apply open_ports_of_lookup_unique.
    + apply Hrs. eauto.
    + intros v' (p & Hin' & Hp')%Hrs.
      pose proof (scan_port_fst _ _ _ _ Hp') as Hfst. cbn in Hfst. subst p.
      rewrite Hp in Hp'. by simplify_eq.
Qed.

(** [scan_ports] returns as soon as every probe returns. *)
Lemma scan_ports_returns w host ports :
  (∀ p, p ∈ ports → ∃ r, result (scan_port w host p) = Ret r) →
  ∃ d, result (scan_ports w host ports) = Ret d.
Proof.
  intros Hall. rewrite scan_ports_result.
  assert (∃ rs, map (λ p, result (scan_port w host p)) ports = map Ret rs)
    as [rs Hrs].
  { induction ports as [|p ports IH]; [by exists []|].
    destruct (Hall p) as [r Hr]; [set_solver|].
    destruct IH as [rs Hrs]; [intros; apply Hall; set_solver|].
    exists (r :: rs). cbn. by rewrite Hr, Hrs. }
  apply gather_outcomes_Ret in Hrs. rewrite Hrs. eauto.
Qed.

Lemma scan_ports_absent w host ports port d :
  result (scan_port w host port) = Ret (port, None) →
  result (scan_ports w host ports) = Ret d →
  d !! port = None.
Proof.
  intros Hp Hd. destruct (d !! port) as [v|] eqn:Hv; [|done].
  apply (scan_ports_lookup _ _ _ _ _ _ Hd) in Hv as [_ Hv].
  rewrite Hp in Hv. done.
Qed.

(** ** Paths through an established connection *)

Section Established.
Context (w : world) (host : string) (port : Z).
Context (t : Q) (reader : StreamReader) (writer : StreamWriter).
Hypothesis Hconnect : w host port = Completes t (reader, writer).
Hypothesis Hintime : Qltb t 1 = true.

Lemma established_try :
  scan_port_try w host port =
    let pre := [EvConnect host port; EvResume t]
                 ++ trace (fetch_service_banner reader) in
    match result (fetch_service_banner reader) with
    | Ret info =>
      match wait_closed_behaviour writer with
      | Completes tc _ =>
          (pre ++ [EvClose; EvWaitClosed; EvResume tc;
                   EvSleep (1 # 10); EvResume (1 # 10)],
           Ret (port, info))
      | Raises tc e => (pre ++ [EvClose; EvWaitClosed; EvResume tc], Exc e)
      | Never => (pre ++ [EvClose; EvWaitClosed], Hang)
      end
    | Exc e => (pre, Exc e)
    | Hang => (pre, Hang)
    end.
Proof. by rewrite scan_port_try_unfold, Hconnect, Hintime. Qed.

(** The banner reader failed: nothing after it runs. *)
Lemma established_read_failed e :
  result (fetch_service_banner reader) = Exc e →
  scan_port_try w host port
  = (EvConnect host port :: EvResume t :: EvRead 1024
       :: resumed (read_behaviour reader), Exc e).
Proof.
  intros He. rewrite established_try, He. cbv zeta.
  by rewrite fetch_service_banner_trace.
Qed.

(** The read never resumes: the probe stays in it. *)
Lemma established_read_pending :
  read_behaviour reader = Never →
  scan_port w host port
  = ([EvAcquire; EvConnect host port; EvResume t; EvRead 1024], Hang).
Proof.
  intros Hr.
  assert (scan_port_try w host port
          = ([EvConnect host port; EvResume t; EvRead 1024], Hang)) as Htry.
  { rewrite established_try, fetch_service_banner_unfold, Hr. done. }
  rewrite scan_port_of_try_Hang; by rewrite Htry.
Qed.

(** The banner reader returned and the teardown completed. *)
Lemma established_done info tc :
  result (fetch_service_banner reader) = Ret info →
  wait_closed_behaviour writer = Completes tc () →
  scan_port w host port
  = (EvAcquire :: EvConnect host port :: EvResume t :: EvRead 1024
       :: resumed (read_behaviour reader)
       ++ [EvClose; EvWaitClosed; EvResume tc;
           EvSleep (1 # 10); EvResume (1 # 10); EvRelease],
     Ret (port, info)).
Proof.
  intros Hinfo Hclosed.
  assert (scan_port_try w host port
          = (EvConnect host port :: EvResume t :: EvRead 1024
               :: resumed (read_behaviour reader)
               ++ [EvClose; EvWaitClosed; EvResume tc;
                   EvSleep (1 # 10); EvResume (1 # 10)],
             Ret (port, info))) as Htry.
  { rewrite established_try, Hinfo, Hclosed. cbv zeta.
    by rewrite fetch_service_banner_trace. }
  rewrite (scan_port_of_try_Ret _ _ _ (port, info)); rewrite Htry; [|done].
  cbn. by rewrite <- app_assoc.
Qed.
End Established.

Lemma existsb_resumed {A} (f : event → bool) (b : awaited A) :
  (∀ q, f (EvResume q) = false) → existsb f (resumed b) = false.
Proof. intros Hf. destruct b; cbn; by rewrite ?Hf. Qed.

(** ** Probes that fail *)

Lemma scan_ports_singleton_absent w host port :
  result (scan_port w host port) = Ret (port, None) →
  result (scan_ports w host [port]) = Ret ∅.
Proof. intros Hp. rewrite scan_ports_result. cbn. by rewrite Hp. Qed.

Lemma refused_try w host port t :
  w host port = Raises t ConnectionRefusedError →
  Qltb t 1 = true →
  scan_port_try w host port
  = ([EvConnect host port; EvResume t], Exc ConnectionRefusedError).
Proof. intros Hw Ht. by rewrite scan_port_try_unfold, Hw, Ht. Qed.

(** C2: a probe whose try block ends in a timeout, a refusal or any other
    ordinary exception returns normally with its port and no service
    information, so that [gather] sees no exception; it writes one log
    record, a warning for a timeout or a refusal and an error otherwise;
    and its port is in no mapping that [scan_ports] returns, a scan of
    that port alone returning the empty mapping.  In particular a port on
    which the target refuses the connection before the timeout is logged
    as "Connection refused" and is absent from the mapping. *)
Theorem C2_failed_probe_recovered_logged_absent w host port :
  (∀ e,
     result (scan_port_try w host port) = Exc e →
     is_Exception e = true →
     ∃ msg,
       result (scan_port w host port) = Ret (port, None) ∧
       EvLog (log_level_of e) msg ∈ trace (scan_port w host port) ∧
       (e = TimeoutError →
        msg = "Timeout occurred for port " +:+ pretty port
                +:+ " on " +:+ host) ∧
       (e = ConnectionRefusedError →
        msg = "Connection refused for port " +:+ pretty port
                +:+ " on " +:+ host) ∧
       (∀ ports d,
          result (scan_ports w host ports) = Ret d → d !! port = None) ∧
       result (scan_ports w host [port]) = Ret ∅) ∧
  (∀ t,
     w host port = Raises t ConnectionRefusedError →
     Qltb t 1 = true →
     result (scan_port_try w host port) = Exc ConnectionRefusedError ∧
     result (scan_port w host port) = Ret (port, None) ∧
     EvLog WARNING ("Connection refused for port " +:+ pretty port
                      +:+ " on " +:+ host)
       ∈ trace (scan_port w host port) ∧
     (∀ ports d,
        result (scan_ports w host ports) = Ret d → d !! port = None)).
Proof.
  assert (∀ e,
     result (scan_port_try w host port) = Exc e →
     is_Exception e = true →
     ∃ msg,
       result (scan_port w host port) = Ret (port, None) ∧
       EvLog (log_level_of e) msg ∈ trace (scan_port w host port) ∧
       (e = TimeoutError →
        msg = "Timeout occurred for port " +:+ pretty port
                +:+ " on " +:+ host) ∧
       (e = ConnectionRefusedError →
        msg = "Connection refused for port " +:+ pretty port
                +:+ " on " +:+ host) ∧
       (∀ ports d,
          result (scan_ports w host ports) = Ret d → d !! port = None) ∧
       result (scan_ports w host [port]) = Ret ∅) as Hgen.
  { intros e Hres He.
    destruct (scan_port_caught w host port e Hres He) as (msg & Hmsg & Hp).
    assert (result (scan_port w host port) = Ret (port, None)) as Hret
      by (by rewrite Hp).
    exists msg. split; [done|]. split.
    { rewrite Hp. cbn. rewrite list_elem_of_In. right.
      apply in_or_app. right. by left. }
    split; [intros ->; cbn in Hmsg; by simplify_eq|].
    split; [intros ->; cbn in Hmsg; by simplify_eq|].
    split; [intros ports d; by apply scan_ports_absent|].
    by apply scan_ports_singleton_absent. }
  split; [exact Hgen|].
  intros t Hw Ht.
  assert (result (scan_port_try w host port) = Exc ConnectionRefusedError)
    as Hres by (by rewrite (refused_try w host port t Hw Ht)).
  destruct (Hgen _ Hres eq_refl) as (msg & Hret & Hlog & _ & Hmsg & Habs & _).
  rewrite (Hmsg eq_refl) in Hlog. done.
Qed.

(** At the test target: port 80 refuses the connection. *)
Lemma C2_witness :
  result (scan_port_try test_target "127.0.0.1" 80)
    = Exc ConnectionRefusedError ∧
  result (scan_port test_target "127.0.0.1" 80) = Ret (80, None) ∧
  EvLog WARNING "Connection refused for port 80 on 127.0.0.1"
    ∈ trace (scan_port test_target "127.0.0.1" 80) ∧
  (∀ ports d,
     result (scan_ports test_target "127.0.0.1" ports) = Ret d →
     d !! 80 = None).
Proof.
  exact (proj2 (C2_failed_probe_recovered_logged_absent
                  test_target "127.0.0.1" 80)
               (1 # 1000)%Q eq_refl eq_refl).
Defined.

(** ** Banners that do not decode *)

(** C8: when the bytes read from an established connection do not decode,
    the exception leaves [fetch_service_banner] (no empty banner stands in
    for it), the last except clause of [scan_port] catches it, logs it at
    error level with the text of the exception, and returns the port with
    no service information, so that the port is in no mapping that
    [scan_ports] returns. *)
Theorem C8_decode_failure_is_an_error w host port t reader writer tr data e :
  w host port = Completes t (reader, writer) →
  Qltb t 1 = true →
  read_behaviour reader = Completes tr data →
  decode (take 1024 data) = inl e →
  result (fetch_service_banner reader) = Exc e ∧
  is_Exception e = true ∧
  result (scan_port_try w host port) = Exc e ∧
  result (scan_port w host port) = Ret (port, None) ∧
  EvLog ERROR ("Unexpected error for port " +:+ pretty port +:+ " on "
                 +:+ host +:+ ": " +:+ str_exn e)
    ∈ trace (scan_port w host port) ∧
  (∀ ports d, result (scan_ports w host ports) = Ret d → d !! port = None).
Proof.
  intros Hw Ht Hread Hdec.
  assert (result (fetch_service_banner reader) = Exc e) as Hfetch
    by (by rewrite fetch_service_banner_unfold, Hread, Hdec).
  destruct (decode_error _ _ Hdec) as [q ->].
  assert (result (scan_port_try w host port) = Exc (UnicodeDecodeError q))
    as Htry by (by rewrite (established_read_failed _ _ _ _ _ _ Hw Ht _ Hfetch)).
  destruct (scan_port_caught w host port _ Htry eq_refl) as (msg & Hmsg & Hp).
  cbn in Hmsg. injection Hmsg as <-.
  repeat split; try done.
  - by rewrite Hp.
  - rewrite Hp. cbn. rewrite list_elem_of_In. right.
    apply in_or_app. right. by left.
  - intros ports d. apply scan_ports_absent. by rewrite Hp.
Qed.

(** At the test target: port 24 sends a byte that is not UTF-8. *)
Lemma C8_witness :
  result (fetch_service_banner {| read_behaviour := Completes (1 # 50) [xff] |})
    = Exc (UnicodeDecodeError 0) ∧
  is_Exception (UnicodeDecodeError 0) = true ∧
  result (scan_port_try test_target "127.0.0.1" 24)
    = Exc (UnicodeDecodeError 0) ∧
  result (scan_port test_target "127.0.0.1" 24) = Ret (24, None) ∧
  EvLog ERROR ("Unexpected error for port 24 on 127.0.0.1: "
                 +:+ "'utf-8' codec can't decode byte in position 0")
    ∈ trace (scan_port test_target "127.0.0.1" 24) ∧
  (∀ ports d,
     result (scan_ports test_target "127.0.0.1" ports) = Ret d →
     d !! 24 = None).
Proof.
  exact (C8_decode_failure_is_an_error test_target "127.0.0.1" 24
           (1 # 100)%Q _ _ (1 # 50)%Q [xff] (UnicodeDecodeError 0)
           eq_refl eq_refl eq_refl eq_refl).
Defined.

(** ** Teardown *)

(** Every probe that leaves [async with semaphore] gives its permit back
    as its last event. *)
Lemma permit_released_on_exit w host port :
  result (scan_port w host port) ≠ Hang →
  last (trace (scan_port w host port)) = Some EvRelease.
Proof.
  intros Hres. destruct (scan_port_trace w host port) as (body & _ & ->).
  destruct (result (scan_port w host port)); [| |done];
    by rewrite !app_comm_cons, last_snoc.
Qed.

(** When the try block runs to its end, the connection is closed and its
    teardown awaited before the permit is given back. *)
Lemma closed_before_release w host port r :
  result (scan_port_try w host port) = Ret r →
  ∃ pre tc,
    trace (scan_port w host port)
    = pre ++ [EvClose; EvWaitClosed; EvResume tc;
              EvSleep (1 # 10); EvResume (1 # 10); EvRelease] ∧
    existsb is_sleep pre = false.
Proof.
  intros Hres. rewrite (scan_port_of_try_Ret _ _ _ _ Hres).
  revert Hres. rewrite scan_port_try_unfold.
  destruct (w host port) as [t [rd wr]|t e|]; [| |done].
  - destruct (Qltb t 1); [|done]. cbv zeta.
    rewrite fetch_service_banner_trace.
    destruct (result (fetch_service_banner rd)); [|done..].
    destruct (wait_closed_behaviour wr) as [tc []| |]; [|done..].
    intros _.
    exists (EvAcquire :: EvConnect host port :: EvResume t :: EvRead 1024
              :: resumed (read_behaviour rd)), tc.
    split; [cbn; by rewrite <- !app_assoc|].
    cbn. by apply existsb_resumed.
  - by destruct (Qltb t 1).
Qed.

(** C5, at the failing input: port 24 of the test target accepts the
    connection and sends a byte that does not decode.  The probe gives
    its permit back, but no [writer.close()] and no [wait_closed()] come
    before: the connection is left open. *)
Theorem C5_connection_left_open_on_error :
  trace (scan_port test_target "127.0.0.1" 24)
  = [EvAcquire; EvConnect "127.0.0.1" 24; EvResume (1 # 100);
     EvRead 1024; EvResume (1 # 50);
     EvLog ERROR ("Unexpected error for port 24 on 127.0.0.1: "
                    +:+ "'utf-8' codec can't decode byte in position 0");
     EvRelease] ∧
  existsb is_close (trace (scan_port test_target "127.0.0.1" 24)) = false ∧
  last (trace (scan_port test_target "127.0.0.1" 24)) = Some EvRelease.
Proof. by vm_compute. Qed.

(** ** The pause *)

Lemma scan_port_except_no_sleep host port e :
  existsb is_sleep (trace (scan_port_except host port e)) = false.
Proof. by destruct e. Qed.

Lemma scan_port_try_Exc_no_sleep w host port e :
  result (scan_port_try w host port) = Exc e →
  existsb is_sleep (trace (scan_port_try w host port)) = false.
Proof.
  rewrite scan_port_try_unfold.
  destruct (w host port) as [t [rd wr]|t e'|]; [| |done].
  - destruct (Qltb t 1); [|done]. cbv zeta.
    rewrite fetch_service_banner_trace.
    destruct (result (fetch_service_banner rd)).
    + destruct (wait_closed_behaviour wr); [done| |done].
      intros _. cbn. rewrite existsb_app, existsb_resumed; done.
    + intros _. cbn. by apply existsb_resumed.
    + done.
  - by destruct (Qltb t 1).
Qed.

(** C6, as the code has it: the probe pauses for 0.1 only when its try
    block runs to its end, that is after the connection, the banner read
    and the teardown; the pause comes after the teardown and before the
    permit is given back, and it is the only one.  A probe whose try
    block raises does not pause at all. *)
Theorem C6_pause_after_teardown_before_release w host port :
  (∀ r,
     result (scan_port_try w host port) = Ret r →
     ∃ pre tc,
       trace (scan_port w host port)
       = pre ++ [EvClose; EvWaitClosed; EvResume tc;
                 EvSleep (1 # 10); EvResume (1 # 10); EvRelease] ∧
       existsb is_sleep pre = false) ∧
  (∀ e,
     result (scan_port_try w host port) = Exc e →
     existsb is_sleep (trace (scan_port w host port)) = false).
Proof.
  split; [apply closed_before_release|].
  intros e Hres. rewrite (scan_port_of_try_Exc _ _ _ _ Hres).
  pose proof (scan_port_try_Exc_no_sleep _ _ _ _ Hres) as Htry.
  pose proof (scan_port_except_no_sleep host port e) as Hexcept.
  unfold trace in *. cbn [fst existsb is_sleep orb].
  by rewrite !existsb_app, Htry, Hexcept.
Qed.

(** At the test target: the open port 9999 and the filtered port 23. *)
Lemma C6_witness :
  (∃ pre tc,
     trace (scan_port test_target "127.0.0.1" 9999)
     = pre ++ [EvClose; EvWaitClosed; EvResume tc;
               EvSleep (1 # 10); EvResume (1 # 10); EvRelease] ∧
     existsb is_sleep pre = false) ∧
  existsb is_sleep (trace (scan_port test_target "127.0.0.1" 23)) = false.
Proof.
  split.
  - exact (proj1 (C6_pause_after_teardown_before_release
                    test_target "127.0.0.1" 9999)
                 (9999, Some (pystr_of_string "ready")) eq_refl).
  - exact (proj2 (C6_pause_after_teardown_before_release
                    test_target "127.0.0.1" 23)
                 TimeoutError eq_refl).
Defined.

(** C6, as stated, fails.  The probe of the refusing port 22 ends in
    Refused and never pauses.  The probe of the open port 9999 pauses
    before it gives its permit back; in neither trace does a pause, or
    anything else, follow the release. *)
Lemma C6_counterexample :
  result (scan_port_try test_target "127.0.0.1" 22)
    = Exc ConnectionRefusedError ∧
  existsb is_sleep (trace (scan_port test_target "127.0.0.1" 22)) = false ∧
  ¬ (∃ pre post,
       trace (scan_port test_target "127.0.0.1" 22) = pre ++ EvRelease :: post ∧
       existsb is_sleep post = true) ∧
  ¬ (∃ pre post,
       trace (scan_port test_target "127.0.0.1" 9999)
       = pre ++ EvRelease :: post ∧
       existsb is_sleep post = true).
Proof.
  split; [by vm_compute|]. split; [by vm_compute|]. split.
  - intros (pre & post & Heq & Hsleep).
    assert (post = []) as ->; [|done].
    apply (nothing_after_release
             (trace (scan_port test_target "127.0.0.1" 22))
             [EvAcquire; EvConnect "127.0.0.1" 22; EvResume (1 # 1000);
              EvLog WARNING "Connection refused for port 22 on 127.0.0.1"]
             pre post); [by vm_compute|done|exact Heq].
  - intros (pre & post & Heq & Hsleep).
    assert (post = []) as ->; [|done].
    apply (nothing_after_release
             (trace (scan_port test_target "127.0.0.1" 9999))
             [EvAcquire; EvConnect "127.0.0.1" 9999; EvResume (1 # 100);
              EvRead 1024; EvResume (1 # 50); EvClose; EvWaitClosed;
              EvResume 0; EvSleep (1 # 10); EvResume (1 # 10)]
             pre post); [by vm_compute|done|exact Heq].
Qed.

(** ** The banner read *)

Lemma scan_port_except_no_read host port e :
  existsb is_read (trace (scan_port_except host port e)) = false.
Proof. by destruct e. Qed.

(** Once the connection is established the probe performs one read, of
    at most 1024 bytes, right after the connection attempt. *)
Lemma established_trace w host port t reader writer :
  w host port = Completes t (reader, writer) →
  Qltb t 1 = true →
  ∃ post,
    trace (scan_port w host port)
    = [EvAcquire; EvConnect host port; EvResume t]
        ++ EvRead 1024 :: resumed (read_behaviour reader) ++ post ∧
    existsb is_read post = false.
Proof.
  intros Hw Ht.
  pose proof (established_try _ _ _ _ _ _ Hw Ht) as Htry. cbv zeta in Htry.
  rewrite fetch_service_banner_trace in Htry.
  destruct (result (fetch_service_banner reader)) as [info|e|] eqn:Hf.
  - destruct (wait_closed_behaviour writer) as [tc []|tc e|] eqn:Hc.
    + rewrite (scan_port_of_try_Ret _ _ _ (port, info)); rewrite Htry; [|done].
      exists [EvClose; EvWaitClosed; EvResume tc;
              EvSleep (1 # 10); EvResume (1 # 10); EvRelease].
      split; [unfold trace; cbn [fst app]; by rewrite <- ?app_assoc|done].
    + rewrite (scan_port_of_try_Exc _ _ _ e); rewrite Htry; [|done].
      exists ([EvClose; EvWaitClosed; EvResume tc]
                ++ trace (scan_port_except host port e) ++ [EvRelease]).
      split; [unfold trace; cbn [fst app]; by rewrite <- ?app_assoc|].
      pose proof (scan_port_except_no_read host port e) as He.
      unfold trace in *. cbn [app existsb is_read orb].
      by rewrite existsb_app, He.
    + rewrite (scan_port_of_try_Hang _ _ _); rewrite Htry; [|done].
      exists [EvClose; EvWaitClosed].
      split; [unfold trace; cbn [fst app]; by rewrite <- ?app_assoc|done].
  - rewrite (scan_port_of_try_Exc _ _ _ e); rewrite Htry; [|done].
    exists (trace (scan_port_except host port e) ++ [EvRelease]).
    split; [unfold trace; cbn [fst app]; by rewrite <- ?app_assoc|].
    pose proof (scan_port_except_no_read host port e) as He.
    unfold trace in *. by rewrite existsb_app, He.
  - rewrite (scan_port_of_try_Hang _ _ _); rewrite Htry; [|done].
    exists []. by rewrite app_nil_r.
Qed.

(** C7, as the code has it: on an established connection the probe
    performs exactly one read, of at most 1024 bytes, and no timeout
    covers it.  Whenever the bytes arrive, however late, the probe has
    waited that long and the banner reader decodes what arrived; when
    nothing ever arrives and the peer keeps the connection open, the
    probe never returns. *)
Theorem C7_single_read_without_timeout w host port t reader writer :
  w host port = Completes t (reader, writer) →
  Qltb t 1 = true →
  (∃ pre post,
     trace (scan_port w host port) = pre ++ EvRead 1024 :: post ∧
     existsb is_read pre = false ∧ existsb is_read post = false) ∧
  (∀ tr data,
     read_behaviour reader = Completes tr data →
     read_wait (trace (scan_port w host port)) = Some tr ∧
     (length (take 1024 data) ≤ 1024)%nat ∧
     result (fetch_service_banner reader)
     = match decode (take 1024 data) with
       | inr s => Ret (Some (strip s))
       | inl e => Exc e
       end) ∧
  (read_behaviour reader = Never →
   result (scan_port w host port) = Hang).
Proof.
  intros Hw Ht.
  destruct (established_trace _ _ _ _ _ _ Hw Ht) as (post & Htr & Hpost).
  split; [|split].
  - eexists _, _. split; [exact Htr|]. split; [done|].
    by rewrite existsb_app, Hpost, existsb_resumed.
  - intros tr data Hr. split; [by rewrite Htr, Hr|]. split.
    + rewrite length_take. lia.
    + by rewrite fetch_service_banner_unfold, Hr.
  - intros Hr. by rewrite (established_read_pending _ _ _ _ _ _ Hw Ht Hr).
Qed.

(** At the test target: port 25 greets five time units after the
    connection. *)
Lemma C7_witness :
  (∃ pre post,
     trace (scan_port test_target "127.0.0.1" 25) = pre ++ EvRead 1024 :: post ∧
     existsb is_read pre = false ∧ existsb is_read post = false) ∧
  (∀ tr data,
     Completes 5%Q (bytes_of_string "hello") = Completes tr data →
     read_wait (trace (scan_port test_target "127.0.0.1" 25)) = Some tr ∧
     (length (take 1024 data) ≤ 1024)%nat ∧
     result (fetch_service_banner
               {| read_behaviour := Completes 5 (bytes_of_string "hello") |})
     = match decode (take 1024 data) with
       | inr s => Ret (Some (strip s))
       | inl e => Exc e
       end) ∧
  (Completes 5%Q (bytes_of_string "hello") = Never →
   result (scan_port test_target "127.0.0.1" 25) = Hang).
Proof.
  exact (C7_single_read_without_timeout test_target "127.0.0.1" 25
           (1 # 100)%Q _ _ eq_refl eq_refl).
Defined.

(** C7, as stated, fails.  Port 25 is connected after 0.01 and greets
    after 5: the probe stays in the read for 5, far beyond what was left
    of the timeout of 1, and reports the greeting.  Port 26 is connected
    and never sends: the probe never returns. *)
Lemma C7_counterexample :
  test_target "127.0.0.1" 25
    = Completes (1 # 100)
        (connection_of (Completes 5 (bytes_of_string "hello"))
                       (Completes 0 ())) ∧
  result (scan_port test_target "127.0.0.1" 25)
    = Ret (25, Some (pystr_of_string "hello")) ∧
  ¬ (∃ tr,
       read_wait (trace (scan_port test_target "127.0.0.1" 25)) = Some tr ∧
       ((1 # 100) + tr <= 1)%Q) ∧
  test_target "127.0.0.1" 26
    = Completes (1 # 100) (connection_of Never (Completes 0 ())) ∧
  result (scan_port test_target "127.0.0.1" 26) = Hang.
Proof.
  split; [by vm_compute|]. split; [by vm_compute|]. split.
  - intros (tr & Hwait & Hle).
    assert (read_wait (trace (scan_port test_target "127.0.0.1" 25))
            = Some 5%Q) as Hfive by (by vm_compute).
    rewrite Hfive in Hwait. injection Hwait as <-.
    by vm_compute in Hle.
  - split; by vm_compute.
Qed.

(** ** Open ports without a banner *)

Lemma scan_ports_singleton_present w host port info :
  result (scan_port w host port) = Ret (port, Some info) →
  result (scan_ports w host [port]) = Ret {[port := info]}.
Proof.
  intros Hp. rewrite scan_ports_result. cbn. rewrite Hp. cbn.
  unfold open_ports_of. cbn. by rewrite insert_empty.
Qed.

(** C3, as the code has it: there is no read window.  When the
    connection is established before the timeout, the read completes, at
    whatever time, with bytes that decode to nothing but whitespace (in
    particular with no bytes at all, the peer having closed), and the
    teardown completes, the probe returns the port with the empty string,
    and the port is in the mapping of [scan_ports] with the empty string
    (never with None). *)
Theorem C3_silent_open_port_has_empty_banner
    w host port t reader writer tr data s tc :
  w host port = Completes t (reader, writer) →
  Qltb t 1 = true →
  read_behaviour reader = Completes tr data →
  decode (take 1024 data) = inr s →
  strip s = [] →
  wait_closed_behaviour writer = Completes tc () →
  result (scan_port w host port) = Ret (port, Some []) ∧
  (∀ ports d,
     port ∈ ports →
     result (scan_ports w host ports) = Ret d →
     d !! port = Some []) ∧
  result (scan_ports w host [port]) = Ret {[port := []]}.
Proof.
  intros Hw Ht Hread Hdec Hstrip Hclosed.
  assert (result (fetch_service_banner reader) = Ret (Some [])) as Hfetch
    by (by rewrite fetch_service_banner_unfold, Hread, Hdec, Hstrip).
  assert (result (scan_port w host port) = Ret (port, Some [])) as Hp
    by (by rewrite (established_done _ _ _ _ _ _ Hw Ht _ _ Hfetch Hclosed)).
  split; [done|]. split.
  - intros ports d Hin Hd. by apply (scan_ports_lookup _ _ _ _ _ _ Hd).
  - by apply scan_ports_singleton_present.
Qed.

(** At the test target: port 27 accepts and closes without a word. *)
Lemma C3_witness :
  result (scan_port test_target "127.0.0.1" 27) = Ret (27, Some []) ∧
  (∀ ports d,
     27 ∈ ports →
     result (scan_ports test_target "127.0.0.1" ports) = Ret d →
     d !! 27 = Some []) ∧
  result (scan_ports test_target "127.0.0.1" [27]) = Ret {[27 := []]}.
Proof.
  exact (C3_silent_open_port_has_empty_banner test_target "127.0.0.1" 27
           (1 # 100)%Q _ _ (1 # 50)%Q [] [] 0%Q
           eq_refl eq_refl eq_refl eq_refl eq_refl eq_refl).
Defined.

(** C3, as stated, fails.  Port 26 accepts the connection and then sends
    nothing: the read never resumes, the probe never returns, and
    [scan_ports] yields no mapping at all.  Port 25 accepts and sends
    nothing during the time left of the timeout, but greets after 5: the
    port is in the mapping with that greeting, not with an empty
    banner. *)
Lemma C3_counterexample :
  test_target "127.0.0.1" 26
    = Completes (1 # 100) (connection_of Never (Completes 0 ())) ∧
  result (scan_port test_target "127.0.0.1" 26) = Hang ∧
  ¬ (∃ d, result (scan_ports test_target "127.0.0.1" [26]) = Ret d) ∧
  test_target "127.0.0.1" 25
    = Completes (1 # 100)
        (connection_of (Completes 5 (bytes_of_string "hello"))
                       (Completes 0 ())) ∧
  ¬ (∃ d, result (scan_ports test_target "127.0.0.1" [25]) = Ret d ∧
          d !! 25 = Some []).
Proof.
  split; [by vm_compute|]. split; [by vm_compute|]. split.
  - intros (d & Hd).
    assert (result (scan_ports test_target "127.0.0.1" [26]) = Hang) as Hhang
      by (by vm_compute).
    by rewrite Hhang in Hd.
  - split; [by vm_compute|]. intros (d & Hd & Hlookup).
    assert (result (scan_ports test_target "127.0.0.1" [25])
            = Ret {[25 := pystr_of_string "hello"]}) as Hhello
      by (by vm_compute).
    rewrite Hhello in Hd. injection Hd as <-.
    by rewrite lookup_singleton_eq in Hlookup.
Qed.

(** ** A cancelled banner read *)

(** C4, as the code has it: when the read is cancelled on an established
    connection, [fetch_service_banner] returns None and raises nothing;
    the probe goes on to close the connection, and once the teardown has
    completed it returns the port with None, which the filter of
    [scan_ports] drops: the port is in no mapping that [scan_ports]
    returns. *)
Theorem C4_cancelled_read_drops_the_port
    w host port t reader writer tr tc :
  w host port = Completes t (reader, writer) →
  Qltb t 1 = true →
  read_behaviour reader = Raises tr CancelledError →
  wait_closed_behaviour writer = Completes tc () →
  result (fetch_service_banner reader) = Ret None ∧
  scan_port w host port
  = ([EvAcquire; EvConnect host port; EvResume t; EvRead 1024; EvResume tr;
      EvClose; EvWaitClosed; EvResume tc;
      EvSleep (1 # 10); EvResume (1 # 10); EvRelease],
     Ret (port, None)) ∧
  (∀ ports d, result (scan_ports w host ports) = Ret d → d !! port = None) ∧
  result (scan_ports w host [port]) = Ret ∅.
Proof.
  intros Hw Ht Hread Hclosed.
  assert (result (fetch_service_banner reader) = Ret None) as Hfetch
    by (by rewrite fetch_service_banner_unfold, Hread).
  pose proof (established_done _ _ _ _ _ _ Hw Ht _ _ Hfetch Hclosed) as Hp.
  rewrite Hread in Hp. cbn in Hp.
  assert (result (scan_port w host port) = Ret (port, None)) as Hres
    by (by rewrite Hp).
  split; [done|]. split; [done|]. split.
  - intros ports d. by apply scan_ports_absent.
  - by apply scan_ports_singleton_absent.
Qed.

(** At the test target: the read on port 28 is cancelled. *)
Lemma C4_witness :
  result (fetch_service_banner
            {| read_behaviour := Raises (1 # 2) CancelledError |}) = Ret None ∧
  scan_port test_target "127.0.0.1" 28
  = ([EvAcquire; EvConnect "127.0.0.1" 28; EvResume (1 # 100);
      EvRead 1024; EvResume (1 # 2);
      EvClose; EvWaitClosed; EvResume 0;
      EvSleep (1 # 10); EvResume (1 # 10); EvRelease],
     Ret (28, None)) ∧
  (∀ ports d,
     result (scan_ports test_target "127.0.0.1" ports) = Ret d →
     d !! 28 = None) ∧
  result (scan_ports test_target "127.0.0.1" [28]) = Ret ∅.
Proof.
  exact (C4_cancelled_read_drops_the_port test_target "127.0.0.1" 28
           (1 # 100)%Q _ _ (1 # 2)%Q 0%Q eq_refl eq_refl eq_refl eq_refl).
Defined.

(** C4, as stated, fails: the read on port 28 is cancelled after the
    connection was established; the banner reader returns None, and the
    scan of that port returns a mapping without the port. *)
Lemma C4_counterexample :
  test_target "127.0.0.1" 28
    = Completes (1 # 100)
        (connection_of (Raises (1 # 2) CancelledError) (Completes 0 ())) ∧
  result (fetch_service_banner
            {| read_behaviour := Raises (1 # 2) CancelledError |}) = Ret None ∧
  result (scan_port test_target "127.0.0.1" 28) = Ret (28, None) ∧
  ¬ (∃ d banner,
       result (scan_ports test_target "127.0.0.1" [28]) = Ret d ∧
       d !! 28 = Some banner).
Proof.
  split; [by vm_compute|]. split; [by vm_compute|].
  split; [by vm_compute|]. intros (d & banner & Hd & Hlookup).
  assert (result (scan_ports test_target "127.0.0.1" [28]) = Ret ∅) as Hempty
    by (by vm_compute).
  rewrite Hempty in Hd. injection Hd as <-.
  by rewrite lookup_empty in Hlookup.
Qed.

(** ** What a probe hands to the orchestrator *)

Lemma cooperative_try w host port :
  cooperative w host port →
  (∃ r, result (scan_port_try w host port) = Ret r) ∨
  (∃ e, result (scan_port_try w host port) = Exc e ∧ is_Exception e = true).
Proof.
  unfold cooperative. rewrite scan_port_try_unfold.
  destruct (w host port) as [t [rd wr]|t e|].
  - destruct (Qltb t 1); [|intros _; right; by exists TimeoutError].
    intros [Hread Hclosed]; [done|]. cbv zeta.
    rewrite fetch_service_banner_unfold. cbn [result snd].
    destruct (read_behaviour rd) as [tr data|tr e|]; [| |done].
    + destruct (decode (take 1024 data)) as [e|s] eqn:Hdec.
      * right. exists e. split; [done|].
        by destruct (decode_error _ _ Hdec) as [q ->].
      * destruct (wait_closed_behaviour wr) as [tc []|tc e|]; [| |done].
        -- left. by eexists.
        -- right. by exists e.
    + cbn in Hread. destruct e; try done; right; by eexists.
  - destruct (Qltb t 1); [|intros _; right; by exists TimeoutError].
    intros He. right. exists e. split; [done|]. by apply He.
  - intros _. right. by exists TimeoutError.
Qed.

Lemma cooperative_returns w host port :
  cooperative w host port →
  ∃ info, result (scan_port w host port) = Ret (port, info).
Proof.
  intros [[r Hr]|(e & He & Hexc)]%cooperative_try.
  - rewrite (scan_port_of_try_Ret _ _ _ _ Hr).
    pose proof (scan_port_try_fst _ _ _ _ Hr) as Hfst.
    destruct r as [p info]. cbn in Hfst. subst p. by exists info.
  - destruct (scan_port_caught _ _ _ _ He Hexc) as (msg & _ & ->).
    by exists None.
Qed.

(** C10: whatever the network does, no ordinary exception leaves a probe
    (only an exception outside [Exception] can), and a probe that returns
    returns a pair whose first component is the port it was given.  A
    probe returns whenever each of its awaits resumes and nothing cancels
    it.  Hence every key of a mapping that [scan_ports] returns is one of
    the ports it was given, and on the empty list [scan_ports] performs
    no event and returns the empty mapping. *)
Theorem C10_probe_returns_its_port w host :
  (∀ port e,
     result (scan_port w host port) = Exc e → is_Exception e = false) ∧
  (∀ port r, result (scan_port w host port) = Ret r → r.1 = port) ∧
  (∀ port,
     cooperative w host port →
     ∃ info, result (scan_port w host port) = Ret (port, info)) ∧
  (∀ ports d k,
     result (scan_ports w host ports) = Ret d →
     is_Some (d !! k) → k ∈ ports) ∧
  scan_ports w host [] = ([], Ret ∅).
Proof.
  split; [intros port e He; by apply scan_port_uncaught in He as [? _]|].
  split; [intros port r; apply scan_port_fst|].
  split; [intros port; apply cooperative_returns|].
  split; [|done].
  intros ports d k Hd [v Hv].
  by apply (scan_ports_lookup _ _ _ _ _ _ Hd) in Hv as [? _].
Qed.

(** At the test target. *)
Lemma C10_witness :
  (∃ info,
     result (scan_port test_target "127.0.0.1" 9999) = Ret (9999, info)) ∧
  (∀ r,
     result (scan_port test_target "127.0.0.1" 22) = Ret r → r.1 = 22) ∧
  (∀ d k,
     result (scan_ports test_target "127.0.0.1" [22; 9999]) = Ret d →
     is_Some (d !! k) → k ∈ [22; 9999]) ∧
  scan_ports test_target "127.0.0.1" [] = ([], Ret ∅).
Proof.
  pose proof (C10_probe_returns_its_port test_target "127.0.0.1")
    as (_ & Hfst & Hret & Hkeys & Hempty).
  split; [|split; [|split]].
  - apply (Hret 9999). intros _. by split.
  - exact (Hfst 22).
  - exact (Hkeys [22; 9999]).
  - exact Hempty.
Defined.

(** ** The event loop: the semaphore bounds the probes in flight *)

Lemma number_of_app f ts1 ts2 :
  number_of f (ts1 ++ ts2) = (number_of f ts1 + number_of f ts2)%nat.
Proof. unfold number_of. by rewrite List.filter_app, length_app. Qed.

Lemma number_of_cons f tk ts :
  number_of f (tk :: ts)
  = ((if f tk then 1 else 0) + number_of f ts)%nat.
Proof. unfold number_of. cbn. by destruct (f tk). Qed.

Lemma number_of_le f g ts :
  (∀ tk, tk ∈ ts → f tk = true → g tk = true) →
  (number_of f ts ≤ number_of g ts)%nat.
Proof.
  induction ts as [|tk ts IH]; intros Hfg; [done|].
  rewrite !number_of_cons.
  assert (number_of f ts ≤ number_of g ts)%nat
    by (apply IH; intros; apply Hfg; [set_solver|done]).
  destruct (f tk) eqn:Hf; [rewrite (Hfg tk) by (done || set_solver)|];
    destruct (g tk); lia.
Qed.

Lemma sem_free_no_acquire body :
  sem_free body = true → existsb is_acquire body = false.
Proof.
  induction body as [|e body IH]; [done|]. cbn.
  intros [He Hb]%andb_true_iff. rewrite (IH Hb). by destruct e.
Qed.

Lemma sem_free_no_release body :
  sem_free body = true → existsb is_release body = false.
Proof.
  induction body as [|e body IH]; [done|]. cbn.
  intros [He Hb]%andb_true_iff. rewrite (IH Hb). by destruct e.
Qed.

Lemma spawn_bracketed w host port : bracketed (spawn (scan_port w host port)).
Proof.
  destruct (scan_port_trace w host port) as (body & Hfree & Htr).
  exists host, port, body,
    (match result (scan_port w host port) with
     | Hang => []
     | _ => [EvRelease]
     end).
  split; [exact Htr|]. split; [exact Hfree|].
  destruct (result (scan_port w host port)); auto.
Qed.

Lemma perform_bracketed tk e rest :
  t_todo tk = e :: rest → bracketed tk → bracketed (perform e rest tk).
Proof.
  intros Htodo (host & port & body & tail & Heq & Hfree & Htail).
  exists host, port, body, tail. split; [|done].
  cbn. by rewrite <- app_assoc, <- Heq, Htodo.
Qed.

(** A task about to take its permit has done nothing yet. *)
Lemma bracketed_acquire tk rest :
  bracketed tk → t_todo tk = EvAcquire :: rest → t_done tk = [].
Proof.
  intros (host & port & body & tail & Heq & Hfree & Htail) Htodo.
  rewrite Htodo in Heq. destruct (t_done tk) as [|d dn]; [done|].
  cbn in Heq. injection Heq as -> Heq.
  assert (existsb is_acquire (dn ++ EvAcquire :: rest) = true) as Hin
    by (by apply existsb_of_split).
  rewrite Heq in Hin. cbn in Hin.
  rewrite existsb_app, (sem_free_no_acquire _ Hfree) in Hin.
  by destruct Htail as [-> | ->].
Qed.

(** A task about to give its permit back holds it, and this is its last
    event. *)
Lemma bracketed_release tk rest :
  bracketed tk → t_todo tk = EvRelease :: rest →
  holds_permit tk = true ∧ rest = [].
Proof.
  intros (host & port & body & tail & Heq & Hfree & Htail) Htodo.
  rewrite Htodo in Heq. unfold holds_permit.
  destruct (t_done tk) as [|d dn]; [done|].
  cbn in Heq. injection Heq as -> Heq. cbn.
  destruct Htail as [-> | ->].
  - assert (existsb is_release (dn ++ EvRelease :: rest) = true) as Hin
      by (by apply existsb_of_split).
    rewrite Heq, app_nil_r in Hin. cbn in Hin.
    by rewrite (sem_free_no_release _ Hfree) in Hin.
  - destruct (split_at_last is_release dn rest (EvConnect host port :: body)
                EvRelease) as [-> ->]; [done| |done|].
    + cbn. by apply sem_free_no_release.
    + cbn. by rewrite (sem_free_no_release _ Hfree).
Qed.

(** A task that has started its connection attempt took a permit
    before. *)
Lemma bracketed_connect tk pre host port post :
  bracketed tk → t_done tk = pre ++ EvConnect host port :: post →
  EvAcquire ∈ pre.
Proof.
  intros (h & p & body & tail & Heq & _ & _) Hdone.
  rewrite Hdone in Heq. destruct pre as [|e pre]; [done|].
  cbn in Heq. injection Heq as -> _. set_solver.
Qed.

Lemma bracketed_active tk :
  bracketed tk → active tk = true → holds_permit tk = true.
Proof.
  intros (h & p & body & tail & Heq & _ & _).
  unfold active, holds_permit.
  destruct (t_done tk) as [|d dn]; [done|].
  cbn in Heq. injection Heq as -> _. cbn.
  by intros [_ ->]%andb_true_iff.
Qed.

Lemma init_invariant capacity w host ports :
  loop_invariant capacity (init capacity w host ports).
Proof.
  split; cbn [init sem_value tasks].
  - assert (number_of holds_permit
              (map (λ port, spawn (scan_port w host port)) ports) = 0%nat)
      as ->; [|lia].
    induction ports as [|p ports IH]; [done|].
    cbn [map]. by rewrite number_of_cons, IH.
  - apply Forall_forall. intros tk (p & <- & _)%list_elem_of_In%in_map_iff.
    apply spawn_bracketed.
Qed.

Lemma perform_holds tk e rest :
  is_acquire e = false → is_release e = false →
  holds_permit (perform e rest tk) = holds_permit tk.
Proof.
  intros Ha Hr. unfold holds_permit. cbn.
  by rewrite !existsb_snoc, Ha, Hr, !orb_false_r.
Qed.

Lemma step_invariant capacity s s' :
  loop_invariant capacity s → step s s' → loop_invariant capacity s'.
Proof.
  intros [Hsem Hall] Hstep.
  destruct Hstep as [v lg l1 tk l2 e rest v' lg' Htodo Hfire].
  unfold loop_invariant. cbn [sem_value tasks] in *.
  apply Forall_app in Hall as [Hl1 Hl2].
  apply Forall_cons in Hl2 as [Htk Hl2].
  split.
  - rewrite number_of_app, number_of_cons in Hsem |- *.
    destruct e; cbn in Hfire; try case_decide;
      try discriminate Hfire; injection Hfire as <- <-;
      try (rewrite perform_holds by done; lia).
    + (* the permit is taken *)
      pose proof (bracketed_acquire _ _ Htk Htodo) as Hdone.
      unfold holds_permit in *. cbn. rewrite Hdone in *. cbn in *. lia.
    + (* the permit is given back *)
      destruct (bracketed_release _ _ Htk Htodo) as [Hheld ->].
      rewrite Hheld in Hsem.
      assert (holds_permit (perform EvRelease [] tk) = false) as ->.
      { unfold holds_permit. cbn. rewrite !existsb_snoc. cbn.
        by rewrite orb_true_r, andb_false_r. }
      lia.
  - apply Forall_app. split; [done|]. apply Forall_cons. split; [|done].
    by apply perform_bracketed.
Qed.

Lemma reachable_invariant capacity s s' :
  loop_invariant capacity s → rtc step s s' → loop_invariant capacity s'.
Proof.
  intros Hinv Hsteps. induction Hsteps as [|s1 s2 s3 Hstep _ IH]; [done|].
  apply IH. by eapply step_invariant.
Qed.

(** C1: in every state that the event loop can reach from the start of a
    scan, whatever the ports and however many, the counter of the
    semaphore and the number of probes inside [async with semaphore] add
    up to the capacity; so at most [capacity] probes have a connection
    attempt or a connection in flight.  And every probe that has started
    its connection attempt took its permit before. *)
Theorem C1_concurrency_bound capacity w host ports s :
  rtc step (init capacity w host ports) s →
  (number_of active (tasks s) ≤ capacity)%nat ∧
  (sem_value s + number_of holds_permit (tasks s) = capacity)%nat ∧
  Forall (λ tk, ∀ pre h p post,
            t_done tk = pre ++ EvConnect h p :: post → EvAcquire ∈ pre)
         (tasks s).
Proof.
  intros Hreach.
  destruct (reachable_invariant capacity _ _
              (init_invariant capacity w host ports) Hreach) as [Hsem Hall].
  split; [|split; [done|]].
  - assert (number_of active (tasks s) ≤ number_of holds_permit (tasks s))%nat;
      [|lia].
    apply number_of_le. intros tk Hin. apply bracketed_active.
    by eapply Forall_forall in Hall.
  - eapply Forall_impl; [exact Hall|]. intros tk Htk pre h p post.
    by apply bracketed_connect.
Qed.

(** With no permit left a probe cannot take one: it stays suspended. *)
Lemma acquire_blocks_at_zero lg : fire EvAcquire 0 lg = None.
Proof. done. Qed.

Lemma step_next v lg l1 tk l2 e v' lg' :
  head (t_todo tk) = Some e →
  fire e v lg = Some (v', lg') →
  step {| sem_value := v; tasks := l1 ++ tk :: l2; log := lg |}
       {| sem_value := v'; tasks := l1 ++ after 1 tk :: l2; log := lg' |}.
Proof.
  intros Hhead Hfire. destruct (t_todo tk) as [|e' rest] eqn:Htodo; [done|].
  injection Hhead as ->.
  replace (after 1 tk) with (perform e rest tk)
    by (unfold after, perform; by rewrite Htodo).
  by apply step_task.
Qed.

(** At the test target: the first of two probes has taken a permit and
    started its connection attempt. *)
Lemma C1_witness :
  let s := {| sem_value := 99;
              tasks := [after 1 (after 1
                          (spawn (scan_port test_target "127.0.0.1" 22)));
                        spawn (scan_port test_target "127.0.0.1" 9999)];
              log := [] |} in
  rtc step (init semaphore test_target "127.0.0.1" [22; 9999]) s ∧
  number_of active (tasks s) = 1%nat ∧
  (number_of active (tasks s) ≤ semaphore)%nat ∧
  (sem_value s + number_of holds_permit (tasks s)
   = semaphore)%nat ∧
  Forall (λ tk, ∀ pre h p post,
            t_done tk = pre ++ EvConnect h p :: post → EvAcquire ∈ pre)
         (tasks s).
Proof.
  intros s.
  assert (rtc step
            (init semaphore test_target "127.0.0.1" [22; 9999]) s)
    as Hreach.
  { eapply rtc_l.
    { apply (step_next 100 [] [] _ [_] EvAcquire 99 []); reflexivity. }
    eapply rtc_l; [|apply rtc_refl].
    apply (step_next 99 [] [] _ [_] (EvConnect "127.0.0.1" 22) 99 []);
      reflexivity. }
  split; [exact Hreach|]. split; [reflexivity|].
  exact (C1_concurrency_bound semaphore test_target
           "127.0.0.1" [22; 9999] s Hreach).
Defined.

(** ** Two runs against the same target *)

Lemma fetch_service_banner_untimed (rd : StreamReader) :
  result (fetch_service_banner rd)
  = result (fetch_service_banner
              {| read_behaviour := untimed (read_behaviour rd) |}).
Proof.
  rewrite !fetch_service_banner_unfold. cbn.
  by destruct (read_behaviour rd).
Qed.

(** The result of the try block depends on the answers only, not on
    when they come, as long as the connection beats the timeout. *)
Lemma scan_port_try_result w host port :
  result (scan_port_try w host port)
  = match answer_within 1 (w host port) with
    | Completes _ (rb, cb) =>
      match result (fetch_service_banner {| read_behaviour := rb |}) with
      | Ret info =>
        match cb with
        | Completes _ _ => Ret (port, info)
        | Raises _ e => Exc e
        | Never => Hang
        end
      | Exc e => Exc e
      | Hang => Hang
      end
    | Raises _ e => Exc e
    | Never => Exc TimeoutError
    end.
Proof.
  rewrite scan_port_try_unfold. unfold answer_within.
  destruct (w host port) as [t [rd wr]|t e|]; [| |done].
  - destruct (Qltb t 1); [|done]. cbv zeta.
    rewrite <- fetch_service_banner_untimed.
    destruct (result (fetch_service_banner rd)); [|done..].
    by destruct (wait_closed_behaviour wr).
  - by destruct (Qltb t 1).
Qed.

Lemma scan_port_result w host port :
  result (scan_port w host port)
  = match result (scan_port_try w host port) with
    | Ret r => Ret r
    | Exc e => result (scan_port_except host port e)
    | Hang => Hang
    end.
Proof.
  destruct (result (scan_port_try w host port)) as [r|e|] eqn:Hres.
  - by rewrite (scan_port_of_try_Ret _ _ _ _ Hres).
  - by rewrite (scan_port_of_try_Exc _ _ _ _ Hres).
  - by rewrite (scan_port_of_try_Hang _ _ _ Hres).
Qed.

Lemma same_target_result w1 w2 host port :
  same_target w1 w2 →
  result (scan_port w1 host port) = result (scan_port w2 host port).
Proof.
  intros Hsame. by rewrite !scan_port_result, !scan_port_try_result, Hsame.
Qed.

(** The loop never changes what a task will hand to [gather]. *)
Lemma step_results s s' :
  step s s' → map t_result (tasks s') = map t_result (tasks s).
Proof.
  intros [v lg l1 tk l2 e rest v' lg' _ _]. cbn. by rewrite !map_app.
Qed.

Lemma reachable_results capacity w host ports s :
  rtc step (init capacity w host ports) s →
  map t_result (tasks s) = map (λ p, result (scan_port w host p)) ports.
Proof.
  intros Hreach.
  assert (∀ s0, rtc step s0 s →
                map t_result (tasks s) = map t_result (tasks s0)) as Hkeep.
  { intros s0 Hsteps. induction Hsteps as [|s1 s2 s3 Hstep _ IH]; [done|].
    by rewrite IH, (step_results _ _ Hstep). }
  rewrite (Hkeep _ Hreach). cbn. by rewrite map_map.
Qed.

(** C9: take two runs of a scan with the same host and the same list of
    ports, against targets that give the same answers on every port but
    at times that may differ (on the same side of the connection
    timeout), under any capacity of the semaphore and any order in which
    the event loop resumes the probes.  When both runs have come to rest,
    [scan_ports] resumes with the same outcome in both, the same mapping
    of open ports when there is one; it is the outcome that [scan_ports]
    computes. *)
Theorem C9_same_target_same_scan_result
    capacity1 capacity2 w1 w2 host ports s1 s2 :
  same_target w1 w2 →
  rtc step (init capacity1 w1 host ports) s1 → quiescent s1 →
  rtc step (init capacity2 w2 host ports) s2 → quiescent s2 →
  scan_result s1 = scan_result s2 ∧
  scan_result s1 = result (scan_ports w1 host ports).
Proof.
  intros Hsame Hrun1 _ Hrun2 _. unfold scan_result.
  rewrite (reachable_results _ _ _ _ _ Hrun1),
    (reachable_results _ _ _ _ _ Hrun2), scan_ports_result.
  split; [|done].
  replace (map (λ p, result (scan_port w2 host p)) ports)
    with (map (λ p, result (scan_port w1 host p)) ports); [done|].
  apply map_ext. intros p. by apply same_target_result.
Qed.

Lemma delayed_same_target : same_target test_target (delayed (1 # 2) test_target).
Proof.
  intros host port. unfold delayed, test_target.
  repeat case_decide; reflexivity.
Qed.

Ltac loop_step l1 :=
  eapply rtc_l; [eapply (step_next _ _ l1); reflexivity|].

(** Two runs over two refusing ports: the first resumes the probes in
    the order of the list under a capacity of 100, the second in the
    other order under a capacity of 1 and behind a slower network.  The
    logs differ, the outcomes agree. *)
Lemma C9_witness :
  let refused22 := (WARNING, "Connection refused for port 22 on 127.0.0.1") in
  let refused80 := (WARNING, "Connection refused for port 80 on 127.0.0.1") in
  let s1 :=
    {| sem_value := 100;
       tasks := [after 5 (spawn (scan_port test_target "127.0.0.1" 22));
                 after 5 (spawn (scan_port test_target "127.0.0.1" 80))];
       log := [refused22; refused80] |} in
  let s2 :=
    {| sem_value := 1;
       tasks := [after 5 (spawn (scan_port (delayed (1 # 2) test_target)
                                           "127.0.0.1" 22));
                 after 5 (spawn (scan_port (delayed (1 # 2) test_target)
                                           "127.0.0.1" 80))];
       log := [refused80; refused22] |} in
  rtc step (init 100 test_target "127.0.0.1" [22; 80]) s1 ∧ quiescent s1 ∧
  rtc step (init 1 (delayed (1 # 2) test_target) "127.0.0.1" [22; 80]) s2 ∧
  quiescent s2 ∧
  log s1 ≠ log s2 ∧
  scan_result s1 = scan_result s2 ∧
  scan_result s1 = result (scan_ports test_target "127.0.0.1" [22; 80]).
Proof.
  intros refused22 refused80 s1 s2.
  assert (rtc step (init 100 test_target "127.0.0.1" [22; 80]) s1) as Hrun1.
  { do 5 loop_step (@nil task). do 5 loop_step [after 5 (spawn
      (scan_port test_target "127.0.0.1" 22))].
    apply rtc_refl. }
  assert (rtc step (init 1 (delayed (1 # 2) test_target) "127.0.0.1" [22; 80])
            s2) as Hrun2.
  { do 5 loop_step [spawn (scan_port (delayed (1 # 2) test_target)
                                     "127.0.0.1" 22)].
    do 5 loop_step (@nil task).
    apply rtc_refl. }
  assert (quiescent s1) as Hq1 by (by repeat constructor).
  assert (quiescent s2) as Hq2 by (by repeat constructor).
  split; [exact Hrun1|]. split; [exact Hq1|].
  split; [exact Hrun2|]. split; [exact Hq2|].
  split; [discriminate|].
  exact (C9_same_target_same_scan_result 100 1 test_target
           (delayed (1 # 2) test_target) "127.0.0.1" [22; 80] s1 s2
           delayed_same_target Hrun1 Hq1 Hrun2 Hq2).
Defined.

(** ** Examples *)

(** A listener on 9999 that greets with "ready" and a newline, nothing on
    22: the mapping has 9999 with "ready" and has no 22. *)
Example scan_ready_listener :
  result (scan_ports test_target "127.0.0.1" [22; 9999])
  = Ret {[9999 := pystr_of_string "ready"]}.
Proof. by vm_compute. Qed.

(** Two refusing ports: the empty mapping, and two warnings. *)
Example scan_refusing_ports :
  scan_ports test_target "127.0.0.1" [80; 81]
  = ([EvAcquire; EvConnect "127.0.0.1" 80; EvResume (1 # 1000);
      EvLog WARNING "Connection refused for port 80 on 127.0.0.1"; EvRelease;
      EvAcquire; EvConnect "127.0.0.1" 81; EvResume (1 # 1000);
      EvLog WARNING "Connection refused for port 81 on 127.0.0.1"; EvRelease],
     Ret ∅).
Proof. by vm_compute. Qed.

(** A filtered port runs into the timeout of 1. *)
Example scan_filtered_port :
  scan_port test_target "127.0.0.1" 23
  = ([EvAcquire; EvConnect "127.0.0.1" 23; EvResume 1;
      EvLog WARNING "Timeout occurred for port 23 on 127.0.0.1"; EvRelease],
     Ret (23, None)).
Proof. by vm_compute. Qed.

(** A name that does not resolve is an error of the last except clause. *)
Example scan_unresolved_host :
  scan_port test_target "nowhere.invalid" 443
  = ([EvAcquire; EvConnect "nowhere.invalid" 443; EvResume (1 # 1000);
      EvLog ERROR ("Unexpected error for port 443 on nowhere.invalid: "
                     +:+ "Name or service not known");
      EvRelease],
     Ret (443, None)).
Proof. by vm_compute. Qed.

(** A cancellation during the connection attempt is not caught: it
    leaves the probe, after the permit was given back. *)
Example scan_cancelled_connect :
  scan_port (λ _ _, Raises (1 # 2) CancelledError) "127.0.0.1" 22
  = ([EvAcquire; EvConnect "127.0.0.1" 22; EvResume (1 # 2); EvRelease],
     Exc CancelledError).
Proof. by vm_compute. Qed.

(** Decoding: two, three and four byte sequences, and what is refused. *)
Example decode_multibyte :
  decode [xc3; xa9; xe2; x82; xac; xf0; x9f; x98; x80]
  = inr [0xE9; 0x20AC; 0x1F600]%N.
Proof. by vm_compute. Qed.

Example decode_refused :
  decode [xc0; x80] = inl (UnicodeDecodeError 0) ∧
  decode [x41; xed; xa0; x80] = inl (UnicodeDecodeError 1) ∧
  decode [xf4; x90; x80; x80] = inl (UnicodeDecodeError 0) ∧
  decode [x41; x42; xe2; x82] = inl (UnicodeDecodeError 2).
Proof. by vm_compute. Qed.

Example strip_whitespace :
  strip (pystr_of_string "  220 ftp ready  ") = pystr_of_string "220 ftp ready".
Proof. by vm_compute. Qed.

(** * Further properties of the scanner *)

(** ** Decoding and stripping *)

Lemma utf8_decode_length bs :
  ∀ pos s, utf8_decode pos bs = inr s → (length s ≤ length bs)%nat.
Proof.
  induction bs as [bs IH] using (induction_ltof1 _ (@length N)).
  unfold ltof in IH.
  intros pos s H. destruct bs as [|b0 r0]; [by injection H as <-|].
  cbn [utf8_decode] in H.
  repeat case_match; simplify_eq; cbn;
    match goal with
    | Hd : utf8_decode _ ?l = inr _ |- _ =>
        apply (IH l) in Hd; [cbn in *; lia | cbn; lia]
    end.
Qed.

Lemma decode_length b s : decode b = inr s → (length s ≤ length b)%nat.
Proof.
  intros H%utf8_decode_length. by rewrite length_map in H.
Qed.

Lemma lstrip_suffix s : ∃ pre, s = pre ++ lstrip s.
Proof.
  induction s as [|c s [pre IH]]; [by exists []|]. cbn.
  destruct (py_isspace c); [|by exists []].
  exists (c :: pre). cbn. by rewrite <- IH.
Qed.

Lemma lstrip_head s c : head (lstrip s) = Some c → py_isspace c = false.
Proof.
  induction s as [|c' s IH]; [done|]. cbn.
  destruct (py_isspace c') eqn:Hc; [done|]. cbn. by intros [= <-].
Qed.

Lemma lstrip_length s : (length (lstrip s) ≤ length s)%nat.
Proof.
  destruct (lstrip_suffix s) as [pre Hs]. rewrite Hs at 2.
  rewrite length_app. lia.
Qed.

Lemma strip_length s : (length (strip s) ≤ length s)%nat.
Proof.
  unfold strip. rewrite length_rev.
  etrans; [apply lstrip_length|]. rewrite length_rev. apply lstrip_length.
Qed.

Lemma last_rev {A} (l : list A) : last (rev l) = head l.
Proof. destruct l as [|a l]; [done|]. cbn. by rewrite last_snoc. Qed.

Lemma head_rev {A} (l : list A) : head (rev l) = last l.
Proof. by rewrite <- last_rev, rev_involutive. Qed.

Lemma strip_last s c : last (strip s) = Some c → py_isspace c = false.
Proof. unfold strip. rewrite last_rev. apply lstrip_head. Qed.

Lemma strip_head s c : head (strip s) = Some c → py_isspace c = false.
Proof.
  unfold strip. rewrite head_rev.
  destruct (lstrip_suffix (rev (lstrip s))) as [pre Hpre].
  destruct (lstrip (rev (lstrip s))) as [|x l] eqn:Hl; [done|].
  intros Hlast.
  assert (last (rev (lstrip s)) = Some c) as Hc.
  { rewrite Hpre. rewrite last_app. by rewrite Hlast. }
  rewrite last_rev in Hc. by apply lstrip_head in Hc.
Qed.

(** ** What the banner reader returns *)

(** [fetch_service_banner] returns None exactly when the read was
    cancelled.  A stream that ends without a byte gives the empty
    string, not None. *)
Theorem fetch_service_banner_none_iff_cancelled (reader : StreamReader) :
  (result (fetch_service_banner reader) = Ret None
   ↔ ∃ t, read_behaviour reader = Raises t CancelledError) ∧
  (∀ t, read_behaviour reader = Completes t [] →
        result (fetch_service_banner reader) = Ret (Some [])).
Proof.
  rewrite fetch_service_banner_unfold. cbn [result snd]. split.
  - destruct (read_behaviour reader) as [t data|t e|].
    + destruct (decode (take 1024 data)); split; try done.
      all: by intros [? ?].
    + destruct e; split; try done; try (by intros [? ?]); eauto.
    + split; [done|by intros [? ?]].
  - by intros t ->.
Qed.

(** A cancelled read, and a stream that ends at once. *)
Lemma fetch_service_banner_none_iff_cancelled_witness :
  result (fetch_service_banner
            {| read_behaviour := Raises (1 # 2) CancelledError |}) = Ret None ∧
  result (fetch_service_banner {| read_behaviour := Completes (1 # 2) [] |})
  = Ret (Some []).
Proof.
  split.
  - apply (proj1 (fetch_service_banner_none_iff_cancelled
                    {| read_behaviour := Raises (1 # 2) CancelledError |})).
    by exists (1 # 2)%Q.
  - by apply (proj2 (fetch_service_banner_none_iff_cancelled
                       {| read_behaviour := Completes (1 # 2) [] |})
                    (1 # 2)%Q).
Defined.

Lemma fetch_service_banner_some (reader : StreamReader) banner :
  result (fetch_service_banner reader) = Ret (Some banner) →
  ∃ t data s,
    read_behaviour reader = Completes t data ∧
    decode (take 1024 data) = inr s ∧ banner = strip s.
Proof.
  rewrite fetch_service_banner_unfold. cbn [result snd].
  destruct (read_behaviour reader) as [t data|t e|]; [| |done].
  - destruct (decode (take 1024 data)) as [e|s] eqn:Hdec; [done|].
    intros [= <-]. by exists t, data, s.
  - by destruct e.
Qed.

Lemma scan_port_banner_origin w host port banner :
  result (scan_port w host port) = Ret (port, Some banner) →
  ∃ t reader writer,
    w host port = Completes t (reader, writer) ∧ Qltb t 1 = true ∧
    result (fetch_service_banner reader) = Ret (Some banner).
Proof.
  rewrite scan_port_result.
  destruct (result (scan_port_try w host port)) as [r|e|] eqn:Htry; [| |done].
  - intros [= ->]. revert Htry. rewrite scan_port_try_unfold.
    destruct (w host port) as [t [rd wr]|t e|]; [| |done].
    + destruct (Qltb t 1) eqn:Ht; [|done]. cbv zeta.
      destruct (result (fetch_service_banner rd)) as [info| |] eqn:Hf;
        [|done..].
      destruct (wait_closed_behaviour wr); [|done..].
      intros [= ->]. by exists t, rd, wr.
    + by destruct (Qltb t 1).
  - destruct (is_Exception e) eqn:He.
    + by destruct (scan_port_except_caught host port e He) as [msg ->].
    + by rewrite (scan_port_except_uncaught host port e He).
Qed.

(** Every banner of a mapping that [scan_ports] returns has at most 1024
    code points and neither begins nor ends with whitespace. *)
Theorem scan_ports_banners_bounded_and_stripped w host ports d port banner :
  result (scan_ports w host ports) = Ret d →
  d !! port = Some banner →
  (length banner ≤ 1024)%nat ∧
  (∀ c, head banner = Some c → py_isspace c = false) ∧
  (∀ c, last banner = Some c → py_isspace c = false).
Proof.
  intros Hd Hlookup.
  apply (scan_ports_lookup _ _ _ _ _ _ Hd) in Hlookup as [_ Hp].
  apply scan_port_banner_origin in Hp as (t & rd & wr & _ & _ & Hf).
  apply fetch_service_banner_some in Hf as (tr & data & s & _ & Hdec & ->).
  split; [|split].
  - etrans; [apply strip_length|]. etrans; [by apply decode_length|].
    rewrite length_take. lia.
  - intros c. apply strip_head.
  - intros c. apply strip_last.
Qed.

(** At the test target: the greeting of port 9999, sent with a newline. *)
Lemma scan_ports_banners_bounded_and_stripped_witness :
  (length (pystr_of_string "ready") ≤ 1024)%nat ∧
  (∀ c, head (pystr_of_string "ready") = Some c → py_isspace c = false) ∧
  (∀ c, last (pystr_of_string "ready") = Some c → py_isspace c = false).
Proof.
  apply (scan_ports_banners_bounded_and_stripped test_target "127.0.0.1"
           [22; 9999] {[9999 := pystr_of_string "ready"]} 9999).
  - by vm_compute.
  - by vm_compute.
Defined.

(** ** The cut at 1024 bytes *)

Lemma utf8_decode_ascii_prefix p :
  ∀ pos rest,
    Forall (λ b, (b < 0x80)%N) p →
    utf8_decode pos (p ++ rest)
    = match utf8_decode (pos + length p) rest with
      | inr s => inr (p ++ s)
      | inl e => inl e
      end.
Proof.
  induction p as [|b p IH]; intros pos rest Hp.
  - cbn. rewrite Nat.add_0_r. by destruct (utf8_decode pos rest).
  - apply Forall_cons in Hp as [Hb Hp]. cbn [app utf8_decode length].
    apply N.ltb_lt in Hb. rewrite Hb, (IH (S pos) rest Hp).
    replace (S pos + length p)%nat with (pos + S (length p))%nat by lia.
    by destruct (utf8_decode _ rest).
Qed.

(** An ordinary exception of the banner reader makes the probe return
    its port with no service information. *)
Lemma read_failure_recovered w host port t reader writer e :
  w host port = Completes t (reader, writer) →
  Qltb t 1 = true →
  result (fetch_service_banner reader) = Exc e →
  is_Exception e = true →
  result (scan_port w host port) = Ret (port, None).
Proof.
  intros Hw Ht Hf He.
  assert (result (scan_port_try w host port) = Exc e) as Htry
    by (by rewrite (established_read_failed _ _ _ _ _ _ Hw Ht _ Hf)).
  by destruct (scan_port_caught _ _ _ _ Htry He) as (msg & _ & ->).
Qed.

(** The read takes at most 1024 bytes, whatever the text.  When the cut
    falls inside a character (here 1023 bytes of ASCII followed by a
    character of two bytes), the bytes that were read do not decode,
    although the text that was sent does: the probe logs an error and
    reports its port like a closed one. *)
Theorem banner_cut_inside_a_character
    w host port t reader writer tr prefix c0 c1 rest :
  w host port = Completes t (reader, writer) →
  Qltb t 1 = true →
  read_behaviour reader = Completes tr (prefix ++ c0 :: c1 :: rest) →
  length prefix = 1023%nat →
  Forall (λ b, (Byte.to_N b < 0x80)%N) prefix →
  (0xC2 ≤ Byte.to_N c0 ≤ 0xDF)%N →
  is_cont (Byte.to_N c1) = true →
  decode (prefix ++ [c0; c1])
  = inr (map Byte.to_N prefix
           ++ [(N.land (Byte.to_N c0) 0x1F * 64
                + cont_bits (Byte.to_N c1))%N]) ∧
  result (fetch_service_banner reader) = Exc (UnicodeDecodeError 1023) ∧
  result (scan_port w host port) = Ret (port, None) ∧
  (∀ ports d, result (scan_ports w host ports) = Ret d → d !! port = None).
Proof.
  intros Hw Ht Hread Hlen Hascii [Hlo Hhi] Hcont.
  assert (Forall (λ b, (b < 0x80)%N) (map Byte.to_N prefix)) as Hascii'
    by (by apply Forall_fmap).
  assert ((Byte.to_N c0 <? 0x80)%N = false) as Hnot_ascii
    by (apply N.ltb_ge; lia).
  assert ((0xC2 <=? Byte.to_N c0)%N && (Byte.to_N c0 <=? 0xDF)%N = true)
    as Htwo by (apply andb_true_iff; split; apply N.leb_le; lia).
  assert (decode (take 1024 (prefix ++ c0 :: c1 :: rest))
          = inl (UnicodeDecodeError 1023)) as Hcut.
  { replace (prefix ++ c0 :: c1 :: rest)
      with ((prefix ++ [c0]) ++ c1 :: rest) by (by rewrite <- app_assoc).
    rewrite take_app_length' by (rewrite length_app; cbn; lia).
    unfold decode. rewrite map_app, (utf8_decode_ascii_prefix _ _ _ Hascii').
    rewrite length_map, Hlen. cbn. by rewrite Hnot_ascii, Htwo. }
  split.
  { unfold decode. rewrite map_app, (utf8_decode_ascii_prefix _ _ _ Hascii').
    cbn. by rewrite Hnot_ascii, Htwo, Hcont. }
  assert (result (fetch_service_banner reader)
          = Exc (UnicodeDecodeError 1023)) as Hf
    by (by rewrite fetch_service_banner_unfold, Hread, Hcut).
  pose proof (read_failure_recovered _ _ _ _ _ _ _ Hw Ht Hf eq_refl) as Hp.
  split; [done|]. split; [done|].
  intros ports d. by apply scan_ports_absent.
Qed.

(** A greeting of 1023 letters followed by an e with an acute accent. *)
Lemma banner_cut_inside_a_character_witness :
  let greeting := replicate 1023 x41 ++ [xc3; xa9] in
  let w : world := λ _ _,
    Completes 0 (connection_of (Completes 0 greeting) (Completes 0 ())) in
  decode (replicate 1023 x41 ++ [xc3; xa9])
  = inr (map Byte.to_N (replicate 1023 x41) ++ [0xE9%N]) ∧
  result (fetch_service_banner {| read_behaviour := Completes 0 greeting |})
  = Exc (UnicodeDecodeError 1023) ∧
  result (scan_port w "127.0.0.1" 21) = Ret (21, None) ∧
  (∀ ports d,
     result (scan_ports w "127.0.0.1" ports) = Ret d → d !! 21 = None).
Proof.
  intros greeting w.
  apply (banner_cut_inside_a_character w "127.0.0.1" 21 0%Q
           {| read_behaviour := Completes 0 greeting |}
           {| wait_closed_behaviour := Completes 0 () |}
           0%Q (replicate 1023 x41) xc3 xa9 []).
  - reflexivity.
  - reflexivity.
  - reflexivity.
  - reflexivity.
  - apply (bool_decide_unpack _). by vm_compute.
  - by vm_compute.
  - reflexivity.
Defined.

(** ** The log records of a probe *)

Lemma logs_of_app tr1 tr2 : logs_of (tr1 ++ tr2) = logs_of tr1 ++ logs_of tr2.
Proof. apply omap_app. Qed.

Lemma logs_of_cons e tr : logs_of (e :: tr) = logs_of [e] ++ logs_of tr.
Proof. apply (logs_of_app [e]). Qed.

Lemma logs_of_resumed {A} (b : awaited A) : logs_of (resumed b) = [].
Proof. by destruct b. Qed.

Lemma scan_port_try_no_logs w host port :
  logs_of (trace (scan_port_try w host port)) = [].
Proof.
  rewrite scan_port_try_unfold.
  destruct (w host port) as [t [rd wr]|t e|]; [| |done].
  - destruct (Qltb t 1); [|done]. cbv zeta.
    rewrite fetch_service_banner_trace.
    destruct (result (fetch_service_banner rd)).
    + destruct (wait_closed_behaviour wr); unfold trace; cbn [fst];
        rewrite !logs_of_app; cbn; by rewrite logs_of_resumed.
    + unfold trace; cbn. apply logs_of_resumed.
    + unfold trace; cbn. apply logs_of_resumed.
  - by destruct (Qltb t 1).
Qed.

(** A probe writes one log record when its try block raises an ordinary
    exception, at the level of that exception, and none otherwise: an
    open port is not logged, and neither is a probe that is cancelled or
    never returns. *)
Theorem probe_logs_its_failure_only w host port :
  match result (scan_port_try w host port) with
  | Exc e =>
      if is_Exception e
      then ∃ msg, logs_of (trace (scan_port w host port))
                  = [(log_level_of e, msg)]
      else logs_of (trace (scan_port w host port)) = []
  | _ => logs_of (trace (scan_port w host port)) = []
  end.
Proof.
  pose proof (scan_port_try_no_logs w host port) as Hno.
  destruct (result (scan_port_try w host port)) as [r|e|] eqn:Hres.
  - rewrite (scan_port_of_try_Ret _ _ _ _ Hres). unfold trace at 1.
    cbn [fst]. by rewrite logs_of_cons, logs_of_app, Hno.
  - destruct (is_Exception e) eqn:He.
    + destruct (scan_port_caught _ _ _ _ Hres He) as (msg & _ & ->).
      exists msg. unfold trace at 1. cbn [fst].
      by rewrite logs_of_cons, logs_of_app, Hno.
    + rewrite (scan_port_of_try_Exc _ _ _ _ Hres),
        (scan_port_except_uncaught _ _ _ He).
      unfold trace at 1. cbn [fst].
      by rewrite logs_of_cons, logs_of_app, Hno.
  - rewrite (scan_port_of_try_Hang _ _ _ Hres). unfold trace at 1.
    cbn [fst]. by rewrite logs_of_cons, Hno.
Qed.

(** ** How long a probe holds its permit *)

Lemma Qltb_lt x y : Qltb x y = true → (x < y)%Q.
Proof.
  unfold Qltb. intros H%negb_true_iff. apply Qnot_le_lt. intros Hle.
  apply Qle_bool_iff in Hle. congruence.
Qed.

Lemma elapsed_cons e tr :
  elapsed (e :: tr)
  = match e with EvResume t => (t + elapsed tr)%Q | _ => elapsed tr end.
Proof. done. Qed.

Lemma elapsed_app tr1 tr2 :
  (elapsed (tr1 ++ tr2) == elapsed tr1 + elapsed tr2)%Q.
Proof.
  induction tr1 as [|e tr1 IH].
  { rewrite app_nil_l. change (elapsed []) with 0%Q. lra. }
  rewrite <- app_comm_cons, !elapsed_cons. destruct e; rewrite ?IH; lra.
Qed.

Lemma elapsed_resumed {A} (b : awaited A) :
  (elapsed (resumed b)
   == match b with Completes q _ | Raises q _ => q | Never => 0 end)%Q.
Proof. destruct b; cbn; lra. Qed.

Lemma scan_port_except_elapsed host port e :
  (elapsed (trace (scan_port_except host port e)) == 0)%Q.
Proof. destruct e; cbn; lra. Qed.

(** A probe whose connection is not established before the timeout
    (refused, failed, unanswered, or answered too late) leaves
    [async with semaphore] after at most 1 time unit.  A probe that runs
    to its end has spent the times of the connection, the read and the
    teardown, and the pause of 0.1. *)
Theorem probe_duration w host port :
  ((¬ ∃ t c, w host port = Completes t c ∧ Qltb t 1 = true) →
   result (scan_port w host port) ≠ Hang ∧
   (elapsed (trace (scan_port w host port)) <= 1)%Q) ∧
  (∀ t reader writer tr data tc info,
     w host port = Completes t (reader, writer) →
     Qltb t 1 = true →
     read_behaviour reader = Completes tr data →
     result (fetch_service_banner reader) = Ret info →
     wait_closed_behaviour writer = Completes tc () →
     (elapsed (trace (scan_port w host port))
      == t + tr + tc + (1 # 10))%Q).
Proof.
  split.
  - intros Hnot.
    assert (∃ x e, scan_port_try w host port
                   = ([EvConnect host port; EvResume x], Exc e)
                   ∧ (x <= 1)%Q) as (x & e & Htry & Hx).
    { rewrite scan_port_try_unfold. unfold timed_out.
      destruct (w host port) as [t c|t e|].
      - destruct (Qltb t 1) eqn:Ht; [destruct Hnot; eauto|].
        destruct c. exists 1%Q, TimeoutError. split; [done|lra].
      - destruct (Qltb t 1) eqn:Ht.
        + exists t, e. split; [done|]. apply Qltb_lt in Ht. lra.
        + exists 1%Q, TimeoutError. split; [done|lra].
      - exists 1%Q, TimeoutError. split; [done|lra]. }
    assert (result (scan_port_try w host port) = Exc e) as Hres
      by (by rewrite Htry).
    rewrite (scan_port_of_try_Exc _ _ _ _ Hres), Htry. split.
    + cbn [result snd]. destruct e; try done.
    + unfold trace at 1 2. cbn [fst].
      change (EvAcquire :: [EvConnect host port; EvResume x]
                ++ trace (scan_port_except host port e) ++ [EvRelease])
        with ([EvAcquire; EvConnect host port; EvResume x]
                ++ trace (scan_port_except host port e) ++ [EvRelease]).
      rewrite !elapsed_app, scan_port_except_elapsed. cbn. lra.
  - intros t reader writer tr data tc info Hw Ht Hread Hf Hclosed.
    rewrite (established_done _ _ _ _ _ _ Hw Ht _ _ Hf Hclosed), Hread.
    cbn. lra.
Qed.

(** At the test target: the filtered port 23 and the open port 9999. *)
Lemma probe_duration_witness :
  (result (scan_port test_target "127.0.0.1" 23) ≠ Hang ∧
   (elapsed (trace (scan_port test_target "127.0.0.1" 23)) <= 1)%Q) ∧
  (elapsed (trace (scan_port test_target "127.0.0.1" 9999))
   == (1 # 100) + (1 # 50) + 0 + (1 # 10))%Q.
Proof.
  pose proof (probe_duration test_target "127.0.0.1" 23) as [Hfail _].
  pose proof (probe_duration test_target "127.0.0.1" 9999) as [_ Hdone].
  split.
  - apply Hfail. intros (t & c & Hw & _). by vm_compute in Hw.
  - eapply (Hdone (1 # 100)%Q _ _ (1 # 50)%Q _ 0%Q); reflexivity.
Defined.

(** ** When a probe never returns, and when it closes its connection *)





Lemma scan_port_except_no_close host port e :
  existsb is_close (trace (scan_port_except host port e)) = false.
Proof. by destruct e. Qed.

(** On an established connection [writer.close()] and [wait_closed()]
    are reached exactly when the banner reader returns, with a banner or
    with None.  When it raises (a read error, bytes that do not decode),
    the probe ends without closing the connection. *)
Theorem connection_closed_iff_banner_reader_returns
    w host port t reader writer :
  w host port = Completes t (reader, writer) →
  Qltb t 1 = true →
  (existsb is_close (trace (scan_port w host port)) = true
   ↔ ∃ info, result (fetch_service_banner reader) = Ret info).
Proof.
  intros Hw Ht.
  pose proof (established_try _ _ _ _ _ _ Hw Ht) as Htry. cbv zeta in Htry.
  rewrite fetch_service_banner_trace in Htry.
  assert (∀ {A} (b : awaited A), existsb is_close (resumed b) = false)
    as Hres by (intros; by apply existsb_resumed).
  destruct (result (fetch_service_banner reader)) as [info|e|] eqn:Hf.
  - split; [eauto|]. intros _.
    destruct (wait_closed_behaviour writer) as [tc []|tc e|] eqn:Hc.
    + rewrite (scan_port_of_try_Ret _ _ _ (port, info)); rewrite Htry; [|done].
      unfold trace. cbn [fst app existsb is_close orb].
      by rewrite !existsb_app, Hres.
    + rewrite (scan_port_of_try_Exc _ _ _ e); rewrite Htry; [|done].
      unfold trace. cbn [fst app existsb is_close orb].
      by rewrite !existsb_app, Hres.
    + rewrite (scan_port_of_try_Hang _ _ _); rewrite Htry; [|done].
      unfold trace. cbn [fst app existsb is_close orb].
      by rewrite !existsb_app, Hres.
  - split; [|by intros [? ?]].
    rewrite (scan_port_of_try_Exc _ _ _ e); rewrite Htry; [|done].
    pose proof (scan_port_except_no_close host port e) as He.
    unfold trace in *. cbn [fst app existsb is_close orb].
    by rewrite !existsb_app, Hres, He.
  - split; [|by intros [? ?]].
    rewrite (scan_port_of_try_Hang _ _ _); rewrite Htry; [|done].
    unfold trace. cbn [fst app existsb is_close orb]. by rewrite Hres.
Qed.

(** At the test target: port 9999 is closed after its greeting, port 24,
    whose byte does not decode, is not. *)
Lemma connection_closed_iff_banner_reader_returns_witness :
  (existsb is_close (trace (scan_port test_target "127.0.0.1" 9999)) = true
   ↔ ∃ info,
       result (fetch_service_banner
                 {| read_behaviour :=
                      Completes (1 # 50) (bytes_of_string "ready
") |}) = Ret info) ∧
  (existsb is_close (trace (scan_port test_target "127.0.0.1" 24)) = true
   ↔ ∃ info,
       result (fetch_service_banner
                 {| read_behaviour := Completes (1 # 50) [xff] |})
       = Ret info).
Proof.
  split.
  - exact (connection_closed_iff_banner_reader_returns test_target
             "127.0.0.1" 9999 (1 # 100)%Q _ _ eq_refl eq_refl).
  - exact (connection_closed_iff_banner_reader_returns test_target
             "127.0.0.1" 24 (1 # 100)%Q _ _ eq_refl eq_refl).
Defined.

(** ** The mapping depends on the set of ports only *)

Lemma gather_outcomes_Exc {A} (os : list (outcome A)) e :
  Exc e ∈ os → ∃ e', gather_outcomes os = Exc e' ∧ Exc e' ∈ os.
Proof.
  induction os as [|o os IH]; [by intros ?%elem_of_nil|].
  intros [<-|Hin]%elem_of_cons; cbn.
  - exists e. split; [done|]. by left.
  - destruct (IH Hin) as (e' & -> & Hin'). destruct o as [a|e0|].
    + exists e'. split; [done|]. by right.
    + exists e0. split; [done|]. by left.
    + exists e'. split; [done|]. by right.
Qed.

Lemma gather_outcomes_Hang {A} (os : list (outcome A)) :
  (∀ e, Exc e ∉ os) → Hang ∈ os → gather_outcomes os = Hang.
Proof.
  induction os as [|o os IH]; [by intros _ ?%elem_of_nil|].
  intros Hno Hin. cbn.
  assert (∀ e, Exc e ∉ os) as Hno'
    by (intros e He; apply (Hno e); by right).
  destruct o as [a|e|].
  - apply elem_of_cons in Hin as [?|Hin]; [done|]. by rewrite (IH Hno' Hin).
  - destruct (Hno e). by left.
  - destruct (gather_outcomes os) as [l|e|] eqn:Hg; [done| |done].
    assert (Exc e ∈ os) as He.
    { clear -Hg. induction os as [|o os IH]; [done|]. cbn in Hg.
      destruct o as [a|e0|], (gather_outcomes os) as [l|e1|];
        simplify_eq; try (by left); right; by apply IH. }
    by destruct (Hno' e).
Qed.

Lemma probes_trichotomy w host (ports : list Z) :
  (∃ p e, p ∈ ports ∧ result (scan_port w host p) = Exc e) ∨
  ((∀ p e, p ∈ ports → result (scan_port w host p) ≠ Exc e) ∧
   ∃ p, p ∈ ports ∧ result (scan_port w host p) = Hang) ∨
  (∀ p, p ∈ ports → ∃ r, result (scan_port w host p) = Ret r).
Proof.
  induction ports as [|p ports IH].
  { right. right. by intros p ?%elem_of_nil. }
  destruct IH as [(q & e & Hq & He)|[[Hno (q & Hq & Hh)]|Hall]].
  - left. exists q, e. split; [by right|done].
  - destruct (result (scan_port w host p)) as [r|e|] eqn:Hp.
    + right. left. split.
      * intros p' e [->|Hin]%elem_of_cons; [congruence|by apply Hno].
      * exists q. split; [by right|done].
    + left. exists p, e. split; [by left|done].
    + right. left. split.
      * intros p' e [->|Hin]%elem_of_cons; [congruence|by apply Hno].
      * exists q. split; [by right|done].
  - destruct (result (scan_port w host p)) as [r|e|] eqn:Hp.
    + right. right. intros p' [->|Hin]%elem_of_cons; [eauto|by apply Hall].
    + left. exists p, e. split; [by left|done].
    + right. left. split.
      * intros p' e [->|Hin]%elem_of_cons; [congruence|].
        destruct (Hall p' Hin) as [r Hr]. congruence.
      * exists p. split; [by left|done].
Qed.

Lemma probe_outcome_gathered w host (ports : list Z) p :
  p ∈ ports →
  result (scan_port w host p)
    ∈ map (λ p, result (scan_port w host p)) ports.
Proof.
  intros Hin%list_elem_of_In. apply list_elem_of_In.
  by apply (in_map (λ p, result (scan_port w host p))).
Qed.

Lemma scan_ports_raises w host (ports : list Z) p e :
  p ∈ ports → result (scan_port w host p) = Exc e →
  result (scan_ports w host ports) = Exc CancelledError.
Proof.
  intros Hin He. rewrite scan_ports_result.
  assert (Exc e ∈ map (λ p, result (scan_port w host p)) ports) as Hexc.
  { rewrite <- He. by apply probe_outcome_gathered. }
  destruct (gather_outcomes_Exc _ _ Hexc) as (e' & -> & Hin').
  apply list_elem_of_In, in_map_iff in Hin' as (q & Hq & _).
  apply scan_port_uncaught in Hq as [Hq _]. by destruct e'.
Qed.

Lemma scan_ports_hangs w host (ports : list Z) p :
  (∀ q e, q ∈ ports → result (scan_port w host q) ≠ Exc e) →
  p ∈ ports → result (scan_port w host p) = Hang →
  result (scan_ports w host ports) = Hang.
Proof.
  intros Hno Hin Hp. rewrite scan_ports_result.
  rewrite gather_outcomes_Hang; [done| |].
  - intros e (q & Hq & Hinq)%list_elem_of_In%in_map_iff.
    by apply (Hno q e); [apply list_elem_of_In|].
  - rewrite <- Hp. by apply probe_outcome_gathered.
Qed.

(** The outcome of [scan_ports] depends on the set of the ports it is
    given, not on their order and not on how often a port occurs. *)
Theorem scan_ports_depends_on_the_set_of_ports
    w host (ports ports' : list Z) :
  (∀ p, p ∈ ports ↔ p ∈ ports') →
  result (scan_ports w host ports) = result (scan_ports w host ports').
Proof.
  intros Hsame.
  destruct (probes_trichotomy w host ports)
    as [(p & e & Hin & He)|[[Hno (p & Hin & Hh)]|Hall]].
  - rewrite (scan_ports_raises _ _ _ _ _ Hin He).
    apply Hsame in Hin. by rewrite (scan_ports_raises _ _ _ _ _ Hin He).
  - rewrite (scan_ports_hangs _ _ _ _ Hno Hin Hh).
    rewrite (scan_ports_hangs w host ports' p); [done| |by apply Hsame|done].
    intros q e Hq. apply Hno. by apply Hsame.
  - destruct (scan_ports_returns w host ports Hall) as [d Hd].
    destruct (scan_ports_returns w host ports') as [d' Hd'].
    { intros p Hin. apply Hall. by apply Hsame. }
    rewrite Hd, Hd'. f_equal. apply map_eq. intros k. apply option_eq.
    intros v.
    rewrite (scan_ports_lookup _ _ _ _ _ _ Hd),
      (scan_ports_lookup _ _ _ _ _ _ Hd'), Hsame.
    done.
Qed.

(** At the test target: a list and the same ports in another order, one
    of them twice. *)
Lemma scan_ports_depends_on_the_set_of_ports_witness :
  result (scan_ports test_target "127.0.0.1" [22; 9999; 27])
  = result (scan_ports test_target "127.0.0.1" [27; 9999; 22; 9999]).
Proof.
  apply scan_ports_depends_on_the_set_of_ports.
  intros p. rewrite !elem_of_cons, !elem_of_nil. tauto.
Defined.

(** ** The event loop: coming to rest *)

Lemma init_tasks capacity w host ports :
  Forall2 (task_of w host) ports (tasks (init capacity w host ports)).
Proof.
  cbn. induction ports as [|p ports IH]; constructor; [|done].
  split; reflexivity.
Qed.

Lemma step_tasks w host ports s s' :
  Forall2 (task_of w host) ports (tasks s) → step s s' →
  Forall2 (task_of w host) ports (tasks s').
Proof.
  intros Hall Hstep.
  destruct Hstep as [v lg l1 tk l2 e rest v' lg' Htodo _]. cbn in *.
  apply Forall2_app_inv_r in Hall as (ps1 & ps2 & H1 & H2 & ->).
  apply Forall2_cons_inv_r in H2 as (p & ps3 & [Htr Hres] & H3 & ->).
  apply Forall2_app; [done|]. constructor; [|done].
  split; [|done]. cbn. by rewrite <- app_assoc, <- Htr, Htodo.
Qed.

Lemma steps_tasks w host ports s s' :
  rtc step s s' →
  Forall2 (task_of w host) ports (tasks s) →
  Forall2 (task_of w host) ports (tasks s').
Proof.
  induction 1 as [|s1 s2 s3 Hstep _ IH]; [done|].
  intros H1. apply IH. by eapply step_tasks.
Qed.

Lemma reachable_tasks capacity w host ports s :
  rtc step (init capacity w host ports) s →
  Forall2 (task_of w host) ports (tasks s).
Proof. intros Hreach. apply (steps_tasks _ _ _ _ _ Hreach), init_tasks. Qed.

Lemma hanging_tasks w host ports ts :
  Forall2 (task_of w host) ports ts →
  number_of (λ tk, is_hang (t_result tk)) ts = hanging w host ports.
Proof.
  unfold hanging. induction 1 as [|p tk ports ts [_ Hres] _ IH]; [done|].
  rewrite number_of_cons. cbn [List.filter]. rewrite Hres.
  destruct (is_hang (result (scan_port w host p))); cbn; lia.
Qed.




Lemma remaining_split v lg l1 tk l2 :
  remaining {| sem_value := v; tasks := l1 ++ tk :: l2; log := lg |}
  = (sum_list (map (λ tk, length (t_todo tk)) l1) + length (t_todo tk)
     + sum_list (map (λ tk, length (t_todo tk)) l2))%nat.
Proof.
  unfold remaining. cbn [tasks]. rewrite map_app, sum_list_with_app. cbn. lia.
Qed.

(** Every step performs one of the events still to come. *)
Lemma step_remaining s s' : step s s' → remaining s = S (remaining s').
Proof.
  intros [v lg l1 tk l2 e rest v' lg' Htodo _].
  rewrite !remaining_split. cbn. rewrite Htodo. cbn. lia.
Qed.

Lemma quiescent_remaining s : quiescent s ↔ remaining s = 0%nat.
Proof.
  unfold quiescent, remaining. induction (tasks s) as [|tk ts IH]; [done|].
  cbn. rewrite Forall_cons, IH. destruct (t_todo tk); cbn.
  - split; [by intros [_ ?]|done].
  - split; [by intros [? _]|lia].
Qed.

Lemma more_of_one_than_of_another f g (ts : list task) :
  (number_of g ts < number_of f ts)%nat →
  ∃ l1 tk l2, ts = l1 ++ tk :: l2 ∧ f tk = true ∧ g tk = false.
Proof.
  induction ts as [|tk ts IH]; [unfold number_of; cbn; lia|].
  rewrite !number_of_cons. intros Hlt.
  destruct (f tk) eqn:Hf, (g tk) eqn:Hg;
    try (by exists [], tk, ts);
    (destruct IH as (l1 & tk' & l2 & -> & Hf' & Hg'); [lia|];
     by exists (tk :: l1), tk', l2).
Qed.

Lemma not_at_rest s :
  remaining s ≠ 0%nat →
  ∃ l1 tk l2 e rest, tasks s = l1 ++ tk :: l2 ∧ t_todo tk = e :: rest.
Proof.
  unfold remaining. induction (tasks s) as [|tk ts IH]; [done|].
  cbn. destruct (t_todo tk) as [|e rest] eqn:Htodo.
  - cbn. intros (l1 & tk' & l2 & e & rest & -> & Hr)%IH.
    by exists (tk :: l1), tk', l2, e, rest.
  - intros _. by exists [], tk, ts, e, rest.
Qed.

(** As long as fewer probes hang than the semaphore has permits, a loop
    that is not at rest can resume some task. *)
Lemma scan_progress capacity w host ports s :
  rtc step (init capacity w host ports) s →
  (hanging w host ports < capacity)%nat →
  remaining s ≠ 0%nat →
  ∃ s', step s s'.
Proof.
  intros Hreach Hhang Hmore.
  destruct (reachable_invariant capacity _ _
              (init_invariant capacity w host ports) Hreach) as [Hsem Hbr].
  pose proof (reachable_tasks _ _ _ _ _ Hreach) as Htasks.
  destruct s as [v ts lg]. cbn [sem_value tasks] in *.
  destruct (decide (0 < v)%nat) as [Hv|Hv].
  - (* a permit is left: any task that is not done can go on *)
    destruct (not_at_rest _ Hmore) as (l1 & tk & l2 & e & rest & Hts & Htodo).
    cbn in Hts. subst ts.
    assert (∃ v' lg', fire e v lg = Some (v', lg')) as (v' & lg' & Hfire).
    { destruct e; cbn; try case_decide; try lia; eauto. }
    eexists. by eapply step_task.
  - (* no permit is left: one of the holders is not a hanging probe *)
    rewrite <- (hanging_tasks _ _ _ _ Htasks) in Hhang.
    destruct (more_of_one_than_of_another holds_permit
                (λ tk, is_hang (t_result tk)) ts)
      as (l1 & tk & l2 & -> & Hheld & Hnot); [lia|].
    apply Forall_app in Hbr as [_ [Hbtk _]%Forall_cons].
    apply Forall2_app_inv_r in Htasks as (ps1 & ps2 & _ & H2 & _).
    apply Forall2_cons_inv_r in H2 as (p & ps3 & [Htr Hres] & _ & _).
    destruct (t_todo tk) as [|e rest] eqn:Htodo.
    { (* at rest it would have given the permit back *)
      rewrite app_nil_r in Htr. unfold holds_permit in Hheld.
      rewrite Hres in Hnot. rewrite Htr in Hheld.
      destruct (scan_port_trace w host p) as (body & Hfree & Hshape).
      rewrite Hshape in Hheld. cbn in Hheld.
      rewrite !existsb_app in Hheld.
      destruct (result (scan_port w host p)); try done;
        cbn in Hheld; by rewrite orb_true_r in Hheld. }
    assert (e ≠ EvAcquire) as He.
    { intros ->. unfold holds_permit in Hheld.
      by rewrite (bracketed_acquire _ _ Hbtk Htodo) in Hheld. }
    assert (∃ v' lg', fire e v lg = Some (v', lg')) as (v' & lg' & Hfire).
    { destruct e; cbn; eauto. done. }
    eexists. by eapply step_task.
Qed.

Lemma steps_remaining n s s' :
  nsteps step n s s' → (n + remaining s' = remaining s)%nat.
Proof.
  induction 1 as [|n s1 s2 s3 Hstep _ IH]; [done|].
  rewrite (step_remaining _ _ Hstep). lia.
Qed.

(** As long as fewer probes hang than the semaphore has permits, the
    scan cannot stall on the semaphore: from every state that the loop
    can reach it can come to rest, and it does so after exactly as many
    steps as events are still to come, whatever the order in which it
    resumes the tasks. *)
Theorem scan_comes_to_rest capacity w host ports s :
  rtc step (init capacity w host ports) s →
  (hanging w host ports < capacity)%nat →
  (∃ s', nsteps step (remaining s) s s' ∧ quiescent s') ∧
  (∀ n s', nsteps step n s s' → (n + remaining s' = remaining s)%nat).
Proof.
  intros Hreach Hhang. split; [|intros n s'; apply steps_remaining].
  remember (remaining s) as n eqn:Hn. revert s Hreach Hn.
  induction n as [|n IH]; intros s Hreach Hn.
  - exists s. split; [constructor|]. by apply quiescent_remaining.
  - destruct (scan_progress _ _ _ _ _ Hreach Hhang) as [s1 Hstep]; [lia|].
    pose proof (step_remaining _ _ Hstep) as Hrem.
    destruct (IH s1) as (s' & Hsteps & Hrest).
    + by eapply rtc_r.
    + lia.
    + exists s'. split; [by econstructor|done].
Qed.

(** At the test target, with a single permit for three ports: the
    filtered port 23 and the refusing port 22 return, the silent port 26
    would stall a later probe, so it is left out. *)
Lemma scan_comes_to_rest_witness :
  (∃ s',
     nsteps step (remaining (init 1 test_target "127.0.0.1" [23; 22; 9999]))
       (init 1 test_target "127.0.0.1" [23; 22; 9999]) s' ∧
     quiescent s') ∧
  (∀ n s',
     nsteps step n (init 1 test_target "127.0.0.1" [23; 22; 9999]) s' →
     (n + remaining s')%nat
     = remaining (init 1 test_target "127.0.0.1" [23; 22; 9999])).
Proof.
  apply (scan_comes_to_rest 1 test_target "127.0.0.1" [23; 22; 9999]).
  - apply rtc_refl.
  - vm_compute. lia.
Defined.

(** With as many hanging probes as permits the scan can stall: under a
    single permit, once the probe of the silent port 26 has taken it, the
    probe of port 22 can never start. *)
Lemma stalled_behind_a_silent_port :
  let s := {| sem_value := 0;
              tasks := [after 4 (spawn (scan_port test_target "127.0.0.1" 26));
                        spawn (scan_port test_target "127.0.0.1" 22)];
              log := [] |} in
  rtc step (init 1 test_target "127.0.0.1" [26; 22]) s ∧
  ¬ quiescent s ∧
  ¬ ∃ s', step s s'.
Proof.
  intros s. split; [|split].
  - do 4 loop_step (@nil task). apply rtc_refl.
  - intros Hq. apply Forall_cons in Hq as [_ Hq].
    apply Forall_cons in Hq as [Hq _]. by vm_compute in Hq.
  - intros [s' Hstep]. unfold s in Hstep. clear s.
    inversion Hstep as [v lg l1 tk l2 e rest v' lg' Htodo Hfire]. subst.
    match goal with H : l1 ++ tk :: l2 = _ |- _ => rename H into Hts end.
    destruct l1 as [|t1 l1]; cbn in Hts; injection Hts as Htk Hl.
    + subst tk. by vm_compute in Htodo.
    + destruct l1 as [|t2 l1]; cbn in Hl; [|by destruct l1].
      injection Hl as Htk' _. subst tk. vm_compute in Htodo.
      injection Htodo as He _. subst e. by cbn in Hfire.
Qed.

(** ** The event loop: the log file *)

Lemma fire_log e v lg v' lg' :
  fire e v lg = Some (v', lg') → lg' = lg ++ logs_of [e].
Proof.
  destruct e; cbn; try case_decide; intros ?; simplify_eq;
    by rewrite ?app_nil_r.
Qed.

Lemma step_log s s' :
  log s ≡ₚ concat (map (λ tk, logs_of (t_done tk)) (tasks s)) →
  step s s' →
  log s' ≡ₚ concat (map (λ tk, logs_of (t_done tk)) (tasks s')).
Proof.
  intros Hinv Hstep.
  destruct Hstep as [v lg l1 tk l2 e rest v' lg' Htodo Hfire].
  cbn [log tasks] in *. rewrite (fire_log _ _ _ _ _ Hfire), Hinv.
  rewrite !map_app, !concat_app. cbn [map concat perform t_done].
  rewrite logs_of_app, <- !app_assoc.
  apply Permutation_app_head, Permutation_app_head.
  apply Permutation_app_comm.
Qed.

Lemma steps_log s s' :
  rtc step s s' →
  log s ≡ₚ concat (map (λ tk, logs_of (t_done tk)) (tasks s)) →
  log s' ≡ₚ concat (map (λ tk, logs_of (t_done tk)) (tasks s')).
Proof.
  induction 1 as [|s1 s2 s3 Hstep _ IH]; [done|].
  intros H1. apply IH. by eapply step_log.
Qed.

Lemma logs_of_concat trs : logs_of (concat trs) = concat (map logs_of trs).
Proof.
  induction trs as [|tr trs IH]; [done|]. cbn [concat map].
  by rewrite logs_of_app, IH.
Qed.

Lemma rest_logs w host ports ts :
  Forall2 (task_of w host) ports ts →
  Forall (λ tk, t_todo tk = []) ts →
  map (λ tk, logs_of (t_done tk)) ts
  = map (λ p, logs_of (trace (scan_port w host p))) ports.
Proof.
  induction 1 as [|p tk ps ts [Htr _] _ IH]; [done|].
  intros [Htodo Hrest]%Forall_cons. cbn [map]. rewrite (IH Hrest).
  rewrite Htodo, app_nil_r in Htr. by rewrite Htr.
Qed.

(** When the loop has come to rest, the log file holds the records of
    the probes, each of them once, in the order in which the loop
    happened to resume the probes: it is a permutation of the records
    that [scan_ports] lists in the order of its ports. *)
Theorem log_at_rest capacity w host ports s :
  rtc step (init capacity w host ports) s →
  quiescent s →
  log s ≡ₚ logs_of (trace (scan_ports w host ports)).
Proof.
  intros Hreach Hrest.
  pose proof (reachable_tasks _ _ _ _ _ Hreach) as Htasks.
  rewrite (steps_log _ _ Hreach).
  - rewrite (rest_logs _ _ _ _ Htasks Hrest), scan_ports_trace,
      logs_of_concat, map_map. done.
  - cbn. clear. induction ports as [|p ports IH]; [done|]. cbn. exact IH.
Qed.

(** Two refusing ports under a single permit, the second resumed first:
    the loop is at rest and the log has the two warnings, the one of
    port 80 first. *)
Lemma log_at_rest_witness :
  let refused22 := (WARNING, "Connection refused for port 22 on 127.0.0.1") in
  let refused80 := (WARNING, "Connection refused for port 80 on 127.0.0.1") in
  [refused80; refused22]
  ≡ₚ logs_of (trace (scan_ports test_target "127.0.0.1" [22; 80])).
Proof.
  intros refused22 refused80.
  apply (log_at_rest 1 test_target "127.0.0.1" [22; 80]
           {| sem_value := 1;
              tasks := [after 5 (spawn (scan_port test_target "127.0.0.1" 22));
                        after 5 (spawn (scan_port test_target "127.0.0.1" 80))];
              log := [refused80; refused22] |}).
  - do 5 loop_step [spawn (scan_port test_target "127.0.0.1" 22)].
    do 5 loop_step (@nil task). apply rtc_refl.
  - by repeat constructor.
Defined.


(** ** The dict of open ports, with its order *)

Lemma dict_set_to_map d k v :
  (list_to_map (dict_set d k v) : gmap Z pystr) = <[k := v]> (list_to_map d).
Proof.
  induction d as [|[k' v'] d IH]; [done|]. cbn [dict_set fst].
  case_decide as Hk.
  - subst k'. cbn. by rewrite insert_insert_eq.
  - cbn. rewrite IH. by apply insert_insert_ne.
Qed.

Lemma dict_set_keys d k v :
  (dict_set d k v).*1 = d.*1 ∨
  ((k ∉ d.*1) ∧ (dict_set d k v).*1 = d.*1 ++ [k]).
Proof.
  induction d as [|[k' v'] d IH]; [right; split; [apply not_elem_of_nil|done]|].
  cbn [dict_set fst]. case_decide as Hk.
  - subst k'. by left.
  - destruct IH as [IH|[Hnot IH]]; cbn; rewrite IH; [by left|right].
    split; [|done]. intros [?|?]%elem_of_cons; [congruence|done].
Qed.

Lemma open_ports_dict_snoc rs r :
  open_ports_dict (rs ++ [r])
  = match r.2 with
    | Some info => dict_set (open_ports_dict rs) r.1 info
    | None => open_ports_dict rs
    end.
Proof. unfold open_ports_dict. by rewrite foldl_app. Qed.

(** The dict that the comprehension of [scan_ports] builds has each key
    once, holds the entries of the mapping used above, and keeps its keys
    in the order in which the results come. *)
Theorem open_ports_dict_agrees (results : list (Z * option pystr)) :
  NoDup (open_ports_dict results).*1 ∧
  list_to_map (open_ports_dict results) = open_ports_of results ∧
  (open_ports_dict results).*1 `sublist_of` results.*1.
Proof.
  induction results as [|[k o] rs (Hnodup & Hmap & Hsub)] using rev_ind.
  { split; [constructor|]. split; [done|]. constructor. }
  rewrite open_ports_dict_snoc, open_ports_of_snoc, fmap_app. cbn.
  destruct o as [info|].
  - split; [|split].
    + destruct (dict_set_keys (open_ports_dict rs) k info) as [->|[Hnot ->]];
        [done|].
      apply NoDup_app. split; [done|]. split; [|apply NoDup_singleton].
      intros x Hx ->%list_elem_of_singleton. done.
    + by rewrite dict_set_to_map, Hmap.
    + destruct (dict_set_keys (open_ports_dict rs) k info) as [->|[Hnot ->]].
      * by apply sublist_inserts_r.
      * by apply sublist_app.
  - split; [done|]. split; [done|]. by apply sublist_inserts_r.
Qed.

Lemma scan_ports_dict_result w host ports :
  result (scan_ports_dict w host ports)
  = match gather_outcomes (map (λ p, result (scan_port w host p)) ports) with
    | Ret results => Ret (open_ports_dict results)
    | Exc e => Exc e
    | Hang => Hang
    end.
Proof.
  unfold scan_ports_dict, gather. cbn. rewrite !map_map.
  by destruct (gather_outcomes _).
Qed.

Lemma scan_ports_dict_trace w host ports :
  trace (scan_ports_dict w host ports) = trace (scan_ports w host ports).
Proof.
  unfold scan_ports_dict, scan_ports, gather. cbn.
  by destruct (gather_outcomes _).
Qed.

Lemma gathered_ports w host ports rs :
  map (λ p, result (scan_port w host p)) ports = map Ret rs → rs.*1 = ports.
Proof.
  revert rs. induction ports as [|p ports IH]; intros [|r rs] Heq;
    try done.
  cbn in Heq. injection Heq as Hp Heq. cbn.
  by rewrite (IH rs Heq), (scan_port_fst _ _ _ _ Hp).
Qed.

(** [scan_ports] with the order of its dict: the same events and the
    same outcome as with the mapping used above; when it returns, the
    dict has each open port once, in the order of the list of ports, and
    holds a port with a banner exactly when that port is in the list and
    its probe returned that banner. *)
Theorem scan_ports_dict_entries w host (ports : list Z) :
  trace (scan_ports_dict w host ports) = trace (scan_ports w host ports) ∧
  match result (scan_ports_dict w host ports) with
  | Ret items =>
      result (scan_ports w host ports) = Ret (list_to_map items) ∧
      NoDup items.*1 ∧
      items.*1 `sublist_of` ports ∧
      ∀ p b, (p, b) ∈ items
             ↔ p ∈ ports ∧ result (scan_port w host p) = Ret (p, Some b)
  | Exc e => result (scan_ports w host ports) = Exc e
  | Hang => result (scan_ports w host ports) = Hang
  end.
Proof.
  split; [apply scan_ports_dict_trace|].
  rewrite scan_ports_dict_result, scan_ports_result.
  destruct (gather_outcomes _) as [rs|e|] eqn:Hg; [|done..].
  destruct (open_ports_dict_agrees rs) as (Hnodup & Hmap & Hsub).
  apply gather_outcomes_Ret in Hg.
  rewrite (gathered_ports _ _ _ _ Hg) in Hsub.
  split; [by rewrite Hmap|]. split; [done|]. split; [done|].
  intros p b.
  assert (result (scan_ports w host ports) = Ret (open_ports_of rs)) as Hd.
  { rewrite scan_ports_result. apply gather_outcomes_Ret in Hg.
    by rewrite Hg. }
  rewrite <- (scan_ports_lookup _ _ _ _ _ _ Hd), <- Hmap.
  by rewrite <- elem_of_list_to_map.
Qed.

(** ** The entry point *)

Lemma foldl_logging_files rs st :
  files (foldl (λ st r, logging_record r.1 (Text r.2) st) st rs) = files st ∧
  stdout (foldl (λ st r, logging_record r.1 (Text r.2) st) st rs) = stdout st.
Proof.
  revert st. induction rs as [|r rs IH]; intros st; [done|]. cbn [foldl].
  by destruct (IH (logging_record r.1 (Text r.2) st)) as [-> ->].
Qed.

Lemma foldl_print_lines (lines : list (Z * pystr)) st :
  files (foldl (λ st kv, print (port_line kv) st) st lines) = files st ∧
  log_file (foldl (λ st kv, print (port_line kv) st) st lines) = log_file st ∧
  stdout (foldl (λ st kv, print (port_line kv) st) st lines)
  = stdout st ++ map port_line lines.
Proof.
  revert st. induction lines as [|kv lines IH]; intros st.
  { by rewrite app_nil_r. }
  cbn [foldl map]. destruct (IH (print (port_line kv) st)) as (-> & -> & ->).
  cbn. by rewrite <- app_assoc.
Qed.

(** From the parsed arguments on, [main] returns exactly when every
    probe returns.  It has then printed the start line and either the
    line for no open ports, when the dict is empty, or a heading and one
    line per open port; it has logged the results last; and it has
    written the file of the chosen format from the dict, the CSV file
    with one row per open port under the header, every other file being
    as before.  When some probe raises or never returns, [main] prints
    the start line only and writes no file. *)
Theorem main_reports_the_scan w args st :
  let host := args_host args in
  let start := pystr_of_string ("Starting scan on " +:+ host +:+ "...") in
  match result (scan_ports_dict w host (args_ports args)) with
  | Ret items =>
      (main w args st).2 = Ret () ∧
      stdout (main w args st).1
      = stdout st ++ start ::
          match items with
          | [] => [pystr_of_string
                     ("No open ports were found on " +:+ host +:+ ".")]
          | _ => pystr_of_string
                   ("Discovered open ports on " +:+ host +:+ ":")
                 :: map port_line items
          end ∧
      last (log_file (main w args st).1) = Some (INFO, Results host items) ∧
      (args_output args = "csv" →
       files (main w args st).1
       = <["scan_results.csv" := CsvDocument (csv_rows items)]> (files st) ∧
       length (csv_rows items) = S (length items)) ∧
      (args_output args = "json" →
       files (main w args st).1
       = <["scan_results.json" := JsonDocument (json_object host items)]>
           (files st)) ∧
      (args_output args ≠ "csv" → args_output args ≠ "json" →
       files (main w args st).1 = files st)
  | _ =>
      (main w args st).2 ≠ Ret () ∧
      stdout (main w args st).1 = stdout st ++ [start] ∧
      files (main w args st).1 = files st
  end.
Proof.
  intros host start. unfold main. fold host. fold start.
  set (logged := foldl _ _ _).
  assert (files logged = files st ∧ stdout logged = stdout st ++ [start])
    as [Hfiles Hout].
  { unfold logged.
    destruct (foldl_logging_files
                (logs_of (trace (scan_ports_dict w host (args_ports args))))
                (print start st)) as [-> ->]. done. }
  destruct (result (scan_ports_dict w host (args_ports args)))
    as [items|e|]; [|done..].
  set (printed := match items with [] => _ | _ => _ end).
  assert (files printed = files st ∧
          stdout printed
          = stdout st ++ start ::
              match items with
              | [] => [pystr_of_string
                         ("No open ports were found on " +:+ host +:+ ".")]
              | _ => pystr_of_string
                       ("Discovered open ports on " +:+ host +:+ ":")
                     :: map port_line items
              end) as [Hfiles' Hout'].
  { unfold printed. destruct items as [|kv items].
    - cbn. by rewrite Hout, <- app_assoc.
    - destruct (foldl_print_lines (kv :: items)
                  (print (pystr_of_string
                            ("Discovered open ports on " +:+ host +:+ ":"))
                         logged)) as (-> & _ & ->).
      cbn. by rewrite Hout, <- !app_assoc. }
  clearbody printed. unfold save_scan_results.
  split; [done|]. split; [|split; [|split; [|split]]].
  - by repeat case_decide.
  - repeat case_decide; cbn; by rewrite last_snoc.
  - intros Hcsv. rewrite Hcsv. repeat case_decide; try done.
    cbn. rewrite Hfiles'. split; [done|]. by rewrite length_map.
  - intros Hjson. rewrite Hjson. repeat case_decide; try done.
    cbn. by rewrite Hfiles'.
  - intros Hc Hj. by repeat case_decide.
Qed.

(** At the test target, from an empty file system: the refusing port 22
    and the greeting port 9999, reported as CSV. *)
Lemma main_reports_the_scan_witness :
  let args := {| args_host := "127.0.0.1"; args_ports := [22; 9999];
                 args_output := "csv" |} in
  let st := {| files := ∅; log_file := []; stdout := [] |} in
  let items := [(9999, pystr_of_string "ready")] in
  (main test_target args st).2 = Ret () ∧
  stdout (main test_target args st).1
  = [pystr_of_string "Starting scan on 127.0.0.1...";
     pystr_of_string "Discovered open ports on 127.0.0.1:";
     pystr_of_string "Port 9999: ready"] ∧
  last (log_file (main test_target args st).1)
  = Some (INFO, Results "127.0.0.1" items) ∧
  files (main test_target args st).1
  = {["scan_results.csv" :=
        CsvDocument
          [[CStr (pystr_of_string "Port");
            CStr (pystr_of_string "Service Banner")];
           [CInt 9999; CStr (pystr_of_string "ready")]]]}.
Proof.
  intros args st items.
  pose proof (main_reports_the_scan test_target args st) as Hmain.
  cbv zeta in Hmain.
  assert (result (scan_ports_dict test_target (args_host args)
                    (args_ports args)) = Ret items) as Hres
    by (by vm_compute).
  rewrite Hres in Hmain.
  destruct Hmain as (Hret & Hout & Hlog & Hcsv & _).
  destruct (Hcsv eq_refl) as [Hfiles _].
  split; [exact Hret|]. split; [exact Hout|]. split; [exact Hlog|].
  rewrite Hfiles. reflexivity.
Defined.
